(** * KML extraction and multi-map merge ([extract_kml.py])

    A shallow embedding of [KMLParser] and of
    [GoogleMapsKMLDownloader.download_multiple_maps_to_csv], with the
    properties of the extraction, normalisation and merge engine.

    Layout: Python values and builtins, the regular expressions of
    [clean_html_tags], the XML element tree, [KMLParser], the merge loop,
    the same functions with the exceptions that leave them, then the lemmas
    and theorems. *)

From Stdlib Require Import ZArith NArith List Ascii String Bool Lia.
From Stdlib Require Import Floats.SpecFloat.
From stdpp Require Import base decidable countable gmap list.

Set Default Proof Using "Type".

(** ** Python strings

    A [str] is a sequence of Unicode code points.  Literals of the source
    that are plain ASCII are written with [lit]; the one literal that is not
    ([ROOT_LABEL]) is given by its code points. *)

Abbreviation char := N (only parsing).
Abbreviation str := (list N) (only parsing).

Definition ch (a : ascii) : char := N_of_ascii a.
Arguments ch a%_char.

Definition lit (x : String.string) : str :=
  map N_of_ascii (String.list_ascii_of_string x).
Arguments lit x%_string.

(** [str.isspace] on one code point, which is also what [\s] matches in a
    [str] pattern and what [str.strip()] removes. *)
Definition isspace (c : char) : bool :=
  ((9 <=? c) && (c <=? 13) || (28 <=? c) && (c <=? 32) || (c =? 133)
   || (c =? 160) || (c =? 5760) || (8192 <=? c) && (c <=? 8202)
   || (c =? 8232) || (c =? 8233) || (c =? 8239) || (c =? 8287)
   || (c =? 12288))%N.

Fixpoint take_while (p : char -> bool) (t : str) : str :=
  match t with
  | c :: r => if p c then c :: take_while p r else []
  | [] => []
  end.

Fixpoint drop_while (p : char -> bool) (t : str) : str :=
  match t with
  | c :: r => if p c then drop_while p r else t
  | [] => []
  end.

Definition lstrip (t : str) : str := drop_while isspace t.
Definition rstrip (t : str) : str := rev (drop_while isspace (rev t)).

(** [t.strip()] *)
Definition strip (t : str) : str := rstrip (lstrip t).

(** [t.startswith(p)] *)
Fixpoint startswith (p t : str) : bool :=
  match p, t with
  | [], _ => true
  | a :: p', b :: t' => (a =? b)%N && startswith p' t'
  | _ :: _, [] => false
  end.

(** [t.endswith(p)] *)
Definition endswith (t p : str) : bool := startswith (rev p) (rev t).

(** [t.split(sep)] for a separator of one character: never empty. *)
Fixpoint split (sep : char) (t : str) : list str :=
  match t with
  | [] => [[]]
  | c :: r =>
      if (c =? sep)%N then [] :: split sep r
      else match split sep r with
           | p :: ps => (c :: p) :: ps
           | [] => [[c]]
           end
  end.

(** Truth value of a value that is a [str] or [None]. *)
Definition truthy (v : option str) : bool :=
  match v with
  | Some (_ :: _) => true
  | _ => false
  end.

(** How an f-string renders a value that is a [str] or [None]. *)
Definition fmt (v : option str) : str :=
  match v with
  | Some t => t
  | None => lit "None"
  end.

(** ** [re.sub]

    A compiled pattern is a function that, tried at the start of the text
    that remains, gives the replacement and the length of the match.
    [re_sub] scans from the left: where the pattern matches, the replacement
    is written and the scan resumes after the match ([skip] counts the
    characters of the match still to pass over); where it does not, the
    character is kept.  None of the three patterns of the source matches the
    empty string. *)

Definition pattern := str -> option (str * nat).

Fixpoint re_sub (pat : pattern) (skip : nat) (text : str) : str :=
  match text with
  | [] => []
  | c :: rest =>
      match skip with
      | S k => re_sub pat k rest
      | O =>
          match pat text with
          | Some (repl, len) => repl ++ re_sub pat (pred len) rest
          | None => c :: re_sub pat 0 rest
          end
      end
  end.

Definition CDATA_OPEN : str := lit "<![CDATA[".
Definition CDATA_CLOSE : str := lit "]]>".

(** The lazy group [(.*?)] (with DOTALL) followed by a literal: the shortest
    prefix of [t] after which [close] starts. *)
Fixpoint lazy_until (close t : str) : option str :=
  if startswith close t then Some []
  else match t with
       | [] => None
       | c :: r => option_map (cons c) (lazy_until close r)
       end.

(** [<!\[CDATA\[(.*?)\]\]>] with replacement [\1] *)
Definition pat_cdata : pattern := fun t =>
  if startswith CDATA_OPEN t then
    match lazy_until CDATA_CLOSE (drop (length CDATA_OPEN) t) with
    | Some inner =>
        Some (inner, length CDATA_OPEN + length inner + length CDATA_CLOSE)
    | None => None
    end
  else None.

Definition not_gt (c : char) : bool := negb (c =? ch ">")%N.

(** [<[^>]+>] with the empty replacement: the greedy class takes the longest
    run without a closing bracket, which must not be empty and must be
    followed by one. *)
Definition pat_tag : pattern := fun t =>
  match t with
  | c :: r =>
      if (c =? ch "<")%N then
        let body := take_while not_gt r in
        match body, drop_while not_gt r with
        | _ :: _, _ :: _ => Some ([], 1 + length body + 1)
        | _, _ => None
        end
      else None
  | [] => None
  end.

(** [\s+] with the replacement of one space *)
Definition pat_ws : pattern := fun t =>
  match take_while isspace t with
  | [] => None
  | run => Some ([ch " "], length run)
  end.

(** ** Floats

    Values of Python's [float] are IEEE 754 binary64 numbers. *)

Definition prec : Z := 53.
Definition emax : Z := 1024.
Abbreviation float64 := spec_float (only parsing).

(** ** The element tree of [xml.etree.ElementTree]

    [text] is [None] for an element without character data, as in
    [<name/>]. *)

#[warnings="-register-all"]
Inductive Element : Type :=
  Elem (tag : str) (text : option str) (children : list Element).

Definition tag (e : Element) : str := let 'Elem t _ _ := e in t.
Definition text (e : Element) : option str := let 'Elem _ x _ := e in x.
Definition children (e : Element) : list Element := let 'Elem _ _ c := e in c.

(** The namespace map [self.ns]: [kml:x] names the tag [{uri}x]. *)
Definition KML_NS : str := lit "http://www.opengis.net/kml/2.2".
Definition kml (local : str) : str := ch "{" :: KML_NS ++ ch "}" :: local.

Definition tag_is (t : str) (e : Element) : bool :=
  bool_decide (tag e = t).

(** [element.find('kml:x', ns)]: the first child with that tag. *)
Definition find_child (t : str) (e : Element) : option Element :=
  List.find (tag_is t) (children e).

(** All elements below [e], in document order. *)
Fixpoint descendants (e : Element) : list Element :=
  let 'Elem _ _ cs := e in
  flat_map (fun c => c :: descendants c) cs.

(** [element.find('.//kml:x', ns)]: the first element below with that tag. *)
Definition find_descendant (t : str) (e : Element) : option Element :=
  List.find (tag_is t) (descendants e).

(** [根目錄], the folder label of a placemark outside every folder. *)
Definition ROOT_LABEL : str := [26681; 30446; 37636]%N.

(** One row of the output: the dict built for a Placemark. *)
Record Placemark (F : Type) : Type := mkPlacemark {
  folder : str;
  name : option str;
  description : str;
  style_url : option str;
  latitude : option F;
  longitude : option F;
  source : str
}.
Arguments mkPlacemark {F}.
Arguments folder {F}.
Arguments name {F}.
Arguments description {F}.
Arguments style_url {F}.
Arguments latitude {F}.
Arguments longitude {F}.
Arguments source {F}.

(** What [ET.parse(kml_file)] does with the file: it raises one of the two
    exceptions that [extract_placemarks_from_kml] catches, or it gives the
    tree, of which [getroot()] is the root.  The exceptions that are not
    caught are added by [parse_outcome]. *)
Inductive parse_result : Type :=
| ParseError
| FileNotFoundError
| Tree (root : Element).

(** What is printed, one constructor per message that reports how a file or
    a map fared; a map is named by its position [i] in [map_sources].
    Banners, previews, the warning of [parse_coordinates] and the closing
    summary are not recorded. *)
Inductive message : Type :=
| MsgFileError                          (* ❌ 檔案錯誤 *)
| MsgDownloadFailed (i : nat)           (* ❌ {name} 下載失敗 *)
| MsgNoPlacemarks (i : nat)             (* ⚠️ {name} 沒有 Placemark 資料 *)
| MsgPrimary (i found : nat)            (* ✅ 成功獲取 .. 個 Placemark（主地圖） *)
| MsgSecondary (i found added skipped : nat)
                                        (* ✅ 成功獲取 .., 新增 .., 跳過重複 .. *)
| MsgNothingToSave.                     (* ❌ 沒有任何資料可以儲存 *)

(** The identity key [(placemark.get('folder', ''), placemark.get('name', ''))];
    both entries are always present in the dict. *)
Abbreviation key := (list N * option (list N))%type (only parsing).

Definition folder_name_key {F} (placemark : Placemark F) : key :=
  (folder placemark, name placemark).

(** One entry of [map_sources] and what the network and the file system do
    for it: [download_from_maps_url] returns [False], or it returns [True]
    and leaves a file on which [ET.parse] then runs. *)
Record Source : Type := mkSource { mid : str; display_name : option str }.

Inductive fetched : Type :=
| DownloadFailed
| Downloaded (kml_file : parse_result).

Section KML.

Context {F : Type}.

(** The builtin [float] on a [str]; [None] stands for [ValueError]. *)
Variable float : str -> option F.

(** [_charref.sub(_replace_charref, s)] of the module [html], which
    decodes the character references of [s] from the HTML5 entity table. *)
Variable charref_sub : str -> str.

(** [html.unescape(s)] *)
Definition html_unescape (s : str) : str :=
  if existsb (N.eqb (ch "&")) s then charref_sub s else s.

Definition clean_html_tags (text : option str) : str :=
  match text with
  | None | Some [] => []
  | Some text =>
      let text := re_sub pat_cdata 0 text in
      let text := re_sub pat_tag 0 text in
      let text := html_unescape text in
      strip (re_sub pat_ws 0 text)
  end.

Definition parse_coordinates (coord_text : option str)
  : option F * option F :=
  match coord_text with
  | None | Some [] => (None, None)
  | Some coord_text =>
      match strip coord_text with
      | [] => (None, None)
      | stripped =>
          match split (ch ",") stripped with
          | lng :: lat :: _ =>
              match float lat with
              | None => (None, None)
              | Some latitude =>
                  match float lng with
                  | None => (None, None)
                  | Some longitude => (Some latitude, Some longitude)
                  end
              end
          | _ => (None, None)
          end
      end
  end.

(** The parser object: [self.placemarks] ([self.ns] is constant). *)
Record KMLParser : Type := mkKMLParser { placemarks : list (Placemark F) }.

(** [elem.text if elem is not None else ""] *)
Definition text_or_empty (elem : option Element) : option str :=
  match elem with
  | Some e => text e
  | None => Some []
  end.

Definition is_folder (element : Element) : bool :=
  endswith (tag element) (lit "Folder").

Definition is_placemark (element : Element) : bool :=
  endswith (tag element) (lit "Placemark").

(** [f"{folder_path}/{folder_name}" if folder_path else folder_name] *)
Definition current_folder_path (folder_path : option str)
    (element : Element) : option str :=
  let folder_name := text_or_empty (find_child (kml (lit "name")) element) in
  if truthy folder_path
  then Some (fmt folder_path ++ ch "/" :: fmt folder_name)
  else folder_name.

(** The dict [data] built in the Placemark branch. *)
Definition placemark_data (source_mid : str) (element : Element)
    (folder_path : option str) : Placemark F :=
  let raw_description :=
    text_or_empty (find_child (kml (lit "description")) element) in
  let '(latitude, longitude) :=
    match find_descendant (kml (lit "coordinates")) element with
    | Some coord_elem => parse_coordinates (text coord_elem)
    | None => (None, None)
    end in
  {| folder := if truthy folder_path then fmt folder_path else ROOT_LABEL;
     name := text_or_empty (find_child (kml (lit "name")) element);
     description := clean_html_tags raw_description;
     style_url := text_or_empty (find_child (kml (lit "styleUrl")) element);
     latitude := latitude;
     longitude := longitude;
     source := source_mid |}.

(** The closure [process_element]; the list it appends to is
    [self.placemarks].  This is the walk that is not ended by an exception;
    [process_element_exc] is the walk with the recursion limit of the
    interpreter. *)
Fixpoint process_element (source_mid : str) (element : Element)
    (folder_path : option str) (self : KMLParser) : KMLParser :=
  if is_folder element then
    fold_left
      (fun self child =>
         process_element source_mid child
           (current_folder_path folder_path element) self)
      (children element) self
  else if is_placemark element then
    mkKMLParser
      (placemarks self ++ [placemark_data source_mid element folder_path])
  else
    fold_left
      (fun self child => process_element source_mid child folder_path self)
      (children element) self.

(** Returns the parser after the call, the list returned and what was
    printed. *)
Definition extract_placemarks_from_kml (self : KMLParser)
    (kml_file : parse_result) (source_mid : str)
  : KMLParser * list (Placemark F) * list message :=
  let self := mkKMLParser [] in
  match kml_file with
  | Tree root =>
      let self := process_element source_mid root (Some []) self in
      (self, placemarks self, [])
  | ParseError | FileNotFoundError => (self, [], [MsgFileError])
  end.

(** *** [download_multiple_maps_to_csv] *)

(** The variables of the loop over [map_sources]. *)
Record merge_state : Type := mkMergeState {
  all_placemarks : list (Placemark F);
  primary_map_records : gset key;
  kml_parser : KMLParser;
  stdout : list message
}.

(** [for placemark in placemarks: primary_map_records.add(key)] *)
Definition index_primary (primary_map_records : gset key)
    (placemarks : list (Placemark F)) : gset key :=
  fold_left
    (fun records placemark => records ∪ {[folder_name_key placemark]})
    placemarks primary_map_records.

(** The body of [for placemark in placemarks] for a map that is not the
    first, on [all_placemarks], [added_count] and [skipped_count]. *)
Definition merge_placemark (primary_map_records : gset key)
    (acc : list (Placemark F) * nat * nat) (placemark : Placemark F)
  : list (Placemark F) * nat * nat :=
  let '(all_placemarks, added_count, skipped_count) := acc in
  if decide (folder_name_key placemark ∈ primary_map_records)
  then (all_placemarks, added_count, S skipped_count)
  else (all_placemarks ++ [placemark], S added_count, skipped_count).

(** The body of [for i, source in enumerate(map_sources, 1)]. *)
Definition merge_source (i : nat) (source : Source) (got : fetched)
    (st : merge_state) : merge_state :=
  match got with
  | Downloaded kml_file =>
      let '(parser, placemarks, printed) :=
        extract_placemarks_from_kml (kml_parser st) kml_file (mid source) in
      match placemarks with
      | _ :: _ =>
          if Nat.eqb i 1 then
            {| all_placemarks := all_placemarks st ++ placemarks;
               primary_map_records :=
                 index_primary (primary_map_records st) placemarks;
               kml_parser := parser;
               stdout := stdout st ++ printed
                           ++ [MsgPrimary i (length placemarks)] |}
          else
            let '(all, added_count, skipped_count) :=
              fold_left (merge_placemark (primary_map_records st))
                placemarks (all_placemarks st, 0, 0) in
            {| all_placemarks := all;
               primary_map_records := primary_map_records st;
               kml_parser := parser;
               stdout := stdout st ++ printed
                           ++ [MsgSecondary i (length placemarks)
                                 added_count skipped_count] |}
      | [] =>
          {| all_placemarks := all_placemarks st;
             primary_map_records := primary_map_records st;
             kml_parser := parser;
             stdout := stdout st ++ printed ++ [MsgNoPlacemarks i] |}
      end
  | DownloadFailed =>
      {| all_placemarks := all_placemarks st;
         primary_map_records := primary_map_records st;
         kml_parser := kml_parser st;
         stdout := stdout st ++ [MsgDownloadFailed i] |}
  end.

Fixpoint merge_loop (i : nat) (map_sources : list (Source * fetched))
    (st : merge_state) : merge_state :=
  match map_sources with
  | [] => st
  | (source, got) :: rest =>
      merge_loop (S i) rest (merge_source i source got st)
  end.

Definition merge_init : merge_state :=
  {| all_placemarks := [];
     primary_map_records := ∅;
     kml_parser := mkKMLParser [];
     stdout := [] |}.

(** The value and the rows that the loop determines, and what it printed.
    The closing summary, which comes before [save_to_csv] is called and can
    raise, is added by [download_multiple_maps_run]. *)
Definition download_multiple_maps_to_csv
    (map_sources : list (Source * fetched))
  : bool * option (list (Placemark F)) * list message :=
  let st := merge_loop 1 map_sources merge_init in
  match all_placemarks st with
  | _ :: _ => (true, Some (all_placemarks st), stdout st)
  | [] => (false, None, stdout st ++ [MsgNothingToSave])
  end.

End KML.

(** ** An instance of the builtins

    [float_ascii] is [float] on the decimal notation in ASCII,
    [[sign] digits [. digits] [e [sign] digits]], and on [inf], [infinity]
    and [nan], correctly rounded to binary64.  (The builtin also accepts
    underscores between digits and the decimal digits of other scripts.) *)

Definition is_digit (c : char) : bool := ((48 <=? c) && (c <=? 57))%N.

(** The longest run of digits at the start, as digit values. *)
Fixpoint digits (t : str) : list N * str :=
  match t with
  | c :: r =>
      if is_digit c
      then let '(ds, r') := digits r in ((c - 48)%N :: ds, r')
      else ([], t)
  | [] => ([], [])
  end.

Definition to_number (ds : list N) : N :=
  fold_left (fun a d => (10 * a + d)%N) ds 0%N.

Definition lower (c : char) : char :=
  if ((65 <=? c) && (c <=? 90))%N then (c + 32)%N else c.

(** The whitespace that [float] skips at both ends: the ASCII blanks, and
    the whitespace beyond ASCII, which it first turns into spaces. *)
Definition float_space (c : char) : bool :=
  ((9 <=? c) && (c <=? 13) || (c =? 32) || (127 <? c) && isspace c)%N.

Definition float_strip (t : str) : str :=
  rev (drop_while float_space (rev (drop_while float_space t))).

Definition sign_of (t : str) : bool * str :=
  match t with
  | c :: r =>
      if (c =? ch "-")%N then (true, r)
      else if (c =? ch "+")%N then (false, r)
      else (false, t)
  | [] => (false, [])
  end.

(** The binary64 number nearest to [m * 10 ^ e10], ties to even. *)
Definition decimal_to_float64 (neg : bool) (m : N) (e10 : Z) : float64 :=
  match m with
  | N0 => S754_zero neg
  | Npos p =>
      if (0 <=? e10)%Z
      then binary_normalize prec emax (cond_Zopp neg (Zpos p * 10 ^ e10)) 0 false
      else SFdiv prec emax (S754_finite neg p 0)
             (S754_finite false (Z.to_pos (10 ^ (- e10))) 0)
  end.

Definition float_ascii (t : str) : option float64 :=
  let '(neg, t) := sign_of (float_strip t) in
  let word := map lower t in
  if bool_decide (word = lit "inf") || bool_decide (word = lit "infinity")
  then Some (S754_infinity neg)
  else if bool_decide (word = lit "nan") then Some S754_nan
  else
    let '(int_part, r1) := digits t in
    let '(frac_part, r2) :=
      match r1 with
      | c :: r => if (c =? ch ".")%N then digits r else ([], r1)
      | [] => ([], [])
      end in
    let m := to_number (int_part ++ frac_part) in
    let scale := Z.of_nat (length frac_part) in
    match int_part ++ frac_part, r2 with
    | [], _ => None
    | _ :: _, [] => Some (decimal_to_float64 neg m (- scale))
    | _ :: _, c :: r3 =>
        if (lower c =? ch "e")%N then
          let '(eneg, r4) := sign_of r3 in
          match digits r4 with
          | ((_ :: _) as ed, []) =>
              Some (decimal_to_float64 neg m
                      (cond_Zopp eneg (Z.of_N (to_number ed)) - scale))
          | _ => None
          end
        else None
    end.

Definition float64_of_Z (z : Z) : float64 := binary_normalize prec emax z 0 false.

(** [lo <= x <= hi] on floats; false on [nan]. *)
Definition between (lo hi : Z) (x : float64) : bool :=
  SFleb (float64_of_Z lo) x && SFleb x (float64_of_Z hi).

(** An entity decoder for the examples: it knows no entity. *)
Definition no_charref (s : str) : str := s.

(** ** Vocabulary of the specification

    The definitions below do not come from the source: they say what the
    properties are about. *)

(** Every element of the document with the elements above it, outermost
    first, in document order. *)
Fixpoint nodes (ancestors : list Element) (e : Element)
  : list (list Element * Element) :=
  let 'Elem _ _ cs := e in
  (ancestors, e) :: flat_map (fun c => nodes (ancestors ++ [e]) c) cs.

(** The number of Placemark elements of a document. *)
Definition count_placemark_nodes (root : Element) : nat :=
  length (List.filter (fun n => is_placemark n.2) (nodes [] root)).

(** A Placemark that the walk reaches: none of the elements above it is
    itself a Placemark. *)
Definition reached_placemark (n : list Element * Element) : bool :=
  is_placemark n.2 && forallb (fun a => negb (is_placemark a)) n.1.

Definition reached_placemarks (root : Element)
  : list (list Element * Element) :=
  List.filter reached_placemark (nodes [] root).

(** The folder path the walk holds below the elements [ancestors]. *)
Definition walked_path (ancestors : list Element) : option str :=
  fold_left
    (fun path a => if is_folder a then current_folder_path path a else path)
    ancestors (Some []).

(** The declared name of a container, empty if absent. *)
Definition declared_name (e : Element) : str :=
  match find_child (kml (lit "name")) e with
  | Some n => default [] (text n)
  | None => []
  end.

(** [childPath = parentPath + "/" + name] if [parentPath] is not empty,
    else [name]. *)
Definition child_path (parent_path name : str) : str :=
  match parent_path with
  | [] => name
  | _ :: _ => parent_path ++ ch "/" :: name
  end.

(** The path of the containers among [ancestors], and the folder of a leaf
    below them. *)
Definition container_path (ancestors : list Element) : str :=
  fold_left
    (fun path a => if is_folder a then child_path path (declared_name a)
                   else path)
    ancestors [].

Definition leaf_folder (ancestors : list Element) : str :=
  match container_path ancestors with
  | [] => ROOT_LABEL
  | path => path
  end.

(** Every container above has a name with text, or no name element. *)
Definition named_folder (a : Element) : bool :=
  negb (is_folder a)
  || match find_child (kml (lit "name")) a with
     | Some n => bool_decide (is_Some (text n))
     | None => true
     end.

(** [p] occurs in [t] at position [n] and nowhere before. *)
Definition first_at (p t : str) (n : nat) : bool :=
  startswith p (drop n t)
  && forallb (fun k => negb (startswith p (drop k t))) (seq 0 n).

(** Text without an escaped-text wrapper, without a tag, and the words of a
    text. *)
Definition no_wrapper (t : str) : Prop :=
  ∀ a b c, t ≠ a ++ CDATA_OPEN ++ b ++ CDATA_CLOSE ++ c.

Definition no_tag (t : str) : Prop :=
  ∀ a b c, b ≠ [] → ch ">" ∉ b → t ≠ a ++ ch "<" :: b ++ ch ">" :: c.

(** In HTML a tag starts with [<] followed at once by a letter, [/], [!] or
    [?]; any other [<] is text. *)
Definition opens_markup (c : char) : bool :=
  ((65 <=? c) && (c <=? 90) || (97 <=? c) && (c <=? 122) || (c =? ch "/")
   || (c =? ch "!") || (c =? ch "?"))%N.

Fixpoint no_markup_tag (t : str) : bool :=
  match t with
  | [] => true
  | c :: r =>
      match r with
      | d :: _ => negb ((c =? ch "<")%N && opens_markup d)
      | [] => true
      end
      && no_markup_tag r
  end.

Definition nonspace (c : char) : bool := negb (isspace c).

(** [t.split()]: the maximal runs without whitespace. *)
Fixpoint words_upto (n : nat) (t : str) : list str :=
  match n with
  | O => []
  | S n' =>
      match drop_while isspace t with
      | [] => []
      | t' => take_while nonspace t' :: words_upto n' (drop_while nonspace t')
      end
  end.

Definition words (t : str) : list str := words_upto (length t) t.

(** [" ".join(ws)] *)
Fixpoint join_spaces (ws : list str) : str :=
  match ws with
  | [] => []
  | [w] => w
  | w :: rest => w ++ ch " " :: join_spaces rest
  end.

(** Unwrapping exactly one wrapper, read in two ways: the wrapper around the
    whole text, or the first wrapper of the text. *)
Definition unwrap_outer (t : str) : str :=
  if startswith CDATA_OPEN t && endswith t CDATA_CLOSE
     && (length CDATA_OPEN + length CDATA_CLOSE <=? length t)
  then take (length t - length CDATA_OPEN - length CDATA_CLOSE)
         (drop (length CDATA_OPEN) t)
  else t.

Fixpoint unwrap_first (t : str) : str :=
  match pat_cdata t with
  | Some (inner, len) => inner ++ drop len t
  | None => match t with
            | [] => []
            | c :: r => c :: unwrap_first r
            end
  end.

Section Vocabulary.

Context {F : Type}.
Variable float : str -> option F.
Variable charref_sub : str -> str.

(** The sanitizer with one wrapper removed by [unwrap]. *)
Definition clean_with (unwrap : str -> str) (text : option str) : str :=
  match text with
  | None | Some [] => []
  | Some text =>
      strip (re_sub pat_ws 0
               (html_unescape charref_sub (re_sub pat_tag 0 (unwrap text))))
  end.

(** The step of the merge with a running identity-key set to which the key
    of every appended record is added. *)
Definition running_merge_placemark
    (acc : list (Placemark F) * gset key * nat * nat)
    (placemark : Placemark F)
  : list (Placemark F) * gset key * nat * nat :=
  let '(all_placemarks, keys, added_count, skipped_count) := acc in
  if decide (folder_name_key placemark ∈ keys)
  then (all_placemarks, keys, added_count, S skipped_count)
  else (all_placemarks ++ [placemark], keys ∪ {[folder_name_key placemark]},
        S added_count, skipped_count).

(** The records of the reached Placemarks among the nodes [ns]: one each,
    with the folder path the walk holds there. *)
Definition emitted (source_mid : str) (ns : list (list Element * Element))
  : list (Placemark F) :=
  map (λ n, placemark_data float charref_sub source_mid n.2
              (walked_path n.1))
    (List.filter reached_placemark ns).

(** The RecordSet of a source: what the extractor returns for it, nothing
    if the download failed. *)
Definition source_records (sg : Source * fetched) : list (Placemark F) :=
  match sg.2 with
  | Downloaded kml_file =>
      (extract_placemarks_from_kml float charref_sub (mkKMLParser [])
         kml_file (mid sg.1)).1.2
  | DownloadFailed => []
  end.

(** The keys of the first source, and the rows of the merge in closed
    form. *)
Definition primary_keys (map_sources : list (Source * fetched)) : gset key :=
  match map_sources with
  | first :: _ => list_to_set (folder_name_key <$> source_records first)
  | [] => ∅
  end.

Definition merged_rows (map_sources : list (Source * fetched))
  : list (Placemark F) :=
  match map_sources with
  | first :: others =>
      source_records first
      ++ flat_map
           (fun sg =>
              filter (fun p => folder_name_key p ∉ primary_keys map_sources)
                (source_records sg))
           others
  | [] => []
  end.

End Vocabulary.

(** ** Sample documents *)

Definition elem (local : String.string) (cs : list Element) : Element :=
  Elem (kml (lit local)) None cs.
Arguments elem local%_string cs.

Definition leaf_text (local value : String.string) : Element :=
  Elem (kml (lit local)) (Some (lit value)) [].
Arguments leaf_text (local value)%_string.

Definition point (coordinates : String.string) : Element :=
  elem "Point" [leaf_text "coordinates" coordinates].
Arguments point coordinates%_string.

Definition placemark_at (name coordinates : String.string) : Element :=
  elem "Placemark" [leaf_text "name" name; point coordinates].
Arguments placemark_at (name coordinates)%_string.

Definition folder_of (name : String.string) (cs : list Element) : Element :=
  elem "Folder" (leaf_text "name" name :: cs).
Arguments folder_of name%_string cs.

Definition document (cs : list Element) : Element :=
  elem "kml" [elem "Document" cs].

(** Two folders, one nested, and three leaves, one of them without name and
    without coordinates. *)
Definition doc_sample : Element :=
  document
    [ folder_of "A"
        [ placemark_at "X" "121.5,23.6,0";
          folder_of "B" [ placemark_at "Y" "121.25,23.5,0" ] ];
      folder_of "C" [ elem "Placemark" [] ] ].

(** A placemark far outside the geographic ranges. *)
Definition doc_out_of_range : Element :=
  document [ placemark_at "P" "500,500,0" ].

(** A Placemark element inside a Placemark element. *)
Definition doc_nested_placemark : Element :=
  document [ elem "Placemark" [ leaf_text "name" "P"; placemark_at "Q" "1,2,0" ] ].

(** A folder [<name/>] inside the folder [A]. *)
Definition doc_unnamed_folder : Element :=
  document
    [ folder_of "A"
        [ elem "Folder" [ elem "name" []; placemark_at "P" "121.5,23.6,0" ] ] ].

(** Three maps: the first holds [X] and [Y] in [A/B]; the second holds [X]
    in [A/B] again and [Z] in [C]; the third holds [Z] in [C] as well. *)
Definition doc_primary : Element :=
  document
    [ folder_of "A"
        [ folder_of "B"
            [ placemark_at "X" "121.5,23.6,0"; placemark_at "Y" "121.25,23.5,0" ] ] ].

Definition doc_second : Element :=
  document
    [ folder_of "A" [ folder_of "B" [ placemark_at "X" "121.5,23.6,0" ] ];
      folder_of "C" [ placemark_at "Z" "121.75,23.25,0" ] ].

Definition doc_third : Element :=
  document [ folder_of "C" [ placemark_at "Z" "121.75,23.25,0" ] ].

Definition map_of (id : String.string) (got : fetched) : Source * fetched :=
  (mkSource (lit id) None, got).
Arguments map_of id%_string got.

Definition three_maps : list (Source * fetched) :=
  [ map_of "m1" (Downloaded (Tree doc_primary));
    map_of "m2" (Downloaded (Tree doc_second));
    map_of "m3" (Downloaded (Tree doc_third)) ].

(** The extractor and the merge with the instance of the builtins. *)
Definition extract_ascii (kml_file : parse_result) (source_mid : str)
  : list (Placemark float64) :=
  (extract_placemarks_from_kml float_ascii no_charref (mkKMLParser [])
     kml_file source_mid).1.2.

Definition merge_ascii (map_sources : list (Source * fetched))
  : bool * option (list (Placemark float64)) * list message :=
  download_multiple_maps_to_csv float_ascii no_charref map_sources.

(** ** The rest of [KMLParser] and of [GoogleMapsKMLDownloader] *)

(** [enumerate(l, start)] *)
Fixpoint enumerate {A : Type} (start : nat) (l : list A) : list (nat * A) :=
  match l with
  | [] => []
  | x :: rest => (start, x) :: enumerate (S start) rest
  end.

(** [p['latitude'] is not None and p['longitude'] is not None], the test of
    the count, and [placemark['latitude'] is None or placemark['longitude']
    is None], the test of the listing. *)
Definition has_coordinates {F} (p : Placemark F) : bool :=
  match latitude p, longitude p with
  | Some _, Some _ => true
  | _, _ => false
  end.

Definition lacks_coordinate {F} (p : Placemark F) : bool :=
  match latitude p with
  | None => true
  | Some _ => match longitude p with None => true | Some _ => false end
  end.

(** What [show_summary] prints: that there is no data, or the three counts
    and, when some placemark is without coordinates, a line with position
    and name for each of them. *)
Inductive summary : Type :=
| SummaryNoData
| SummaryCounts (total_count with_coords without_coords : Z)
    (listed : list (nat * option (list N))).

(** What [save_to_csv] does: it has nothing to save, it writes the header
    and one row for each placemark, or the file cannot be written and the
    [IOError] is caught. *)
Inductive saved (F : Type) : Type :=
| NothingToSave
| Written (rows : list (Placemark F))
| WriteFailed.
Arguments NothingToSave {F}.
Arguments Written {F}.
Arguments WriteFailed {F}.

(** What [urlparse(url)] and [parse_qs(parsed_url.query)] do: one of them
    raises, or they give the query parameters and the path. *)
Inductive parsed_url : Type :=
| UrlError
| UrlParts (query_params : gmap (list N) (list (list N))) (path : list N).

(** The loop over [enumerate(path_parts)]: the part after the first part
    [d] that has one after it. *)
Fixpoint part_after_d (path_parts : list (list N)) : option (list N) :=
  match path_parts with
  | [] => None
  | part :: rest =>
      match rest with
      | next :: _ =>
          if bool_decide (part = lit "d") then Some next
          else part_after_d rest
      | [] => part_after_d rest
      end
  end.

(** [None] stands for the [None] returned, also after an exception. *)
Definition extract_map_id (url : parsed_url) : option str :=
  match url with
  | UrlError => None
  | UrlParts query_params path =>
      match query_params !! lit "mid" with
      | Some (map_id :: _) => Some map_id
      | Some [] => None
      | None => part_after_d (split (ch "/") path)
      end
  end.

Definition build_kml_download_url (map_id : str) : str :=
  lit "https://www.google.com/maps/d/kml" ++ lit "?mid=" ++ map_id
  ++ lit "&forcekml=1".

(** [download_kml] is what the network and the disk do for a download URL:
    [True] when the file has been written. *)
Definition download_from_maps_url (url : parsed_url)
    (download_kml : str -> bool) : bool :=
  match extract_map_id url with
  | Some ((_ :: _) as map_id) => download_kml (build_kml_download_url map_id)
  | _ => false
  end.

(** [source_stats[source] = source_stats.get(source, 0) + 1]; a dict keeps
    its keys in the order of insertion. *)
Fixpoint stats_add (source : str) (source_stats : list (list N * nat))
  : list (list N * nat) :=
  match source_stats with
  | [] => [(source, 1)]
  | (s, count) :: rest =>
      if bool_decide (s = source) then (s, S count) :: rest
      else (s, count) :: stats_add source rest
  end.

Definition source_stats {F} (all_placemarks : list (Placemark F))
  : list (list N * nat) :=
  fold_left (fun stats placemark => stats_add (source placemark) stats)
    all_placemarks [].

(** [next((s['name'] for s in map_sources if s['mid'] == source_id),
    source_id)]; [None] stands for the [KeyError] of [s['name']]. *)
Fixpoint source_name (map_sources : list Source) (source_id : str)
  : option str :=
  match map_sources with
  | [] => Some source_id
  | s :: rest =>
      if bool_decide (mid s = source_id) then display_name s
      else source_name rest source_id
  end.

(** The lines of the closing summary: name, identifier and count of each
    source; [None] when a [KeyError] ends it. *)
Definition closing_summary {F} (map_sources : list Source)
    (all_placemarks : list (Placemark F))
  : option (list (list N * list N * nat)) :=
  mapM (fun stat : list N * nat =>
          match source_name map_sources stat.1 with
          | Some source_name => Some (source_name, stat.1, stat.2)
          | None => None
          end)
    (source_stats all_placemarks).

(** The number of rows a printed message reports as taken into the output,
    and whether the counts of a message add up. *)
Definition rows_reported (m : message) : nat :=
  match m with
  | MsgPrimary _ found => found
  | MsgSecondary _ _ added _ => added
  | _ => 0
  end.

Definition counts_add_up (m : message) : Prop :=
  match m with
  | MsgSecondary _ found added skipped => added + skipped = found
  | _ => True
  end.

(** The record [p] with another source identifier. *)
Definition with_source {F} (source_mid : str) (p : Placemark F)
  : Placemark F :=
  {| folder := folder p; name := name p; description := description p;
     style_url := style_url p; latitude := latitude p;
     longitude := longitude p; source := source_mid |}.

(** A word of a cleaned text: not empty and without whitespace. *)
Definition is_word (w : list N) : Prop :=
  w ≠ [] ∧ Forall (fun c => isspace c = false) w.

Section Tools.

Context {F : Type}.
Variable float : str -> option F.
Variable charref_sub : str -> str.

(** [return self.placemarks] *)
Definition get_placemarks (self : KMLParser) : list (Placemark F) :=
  placemarks self.

Definition show_summary (self : KMLParser)
    (placemarks : option (list (Placemark F))) : summary :=
  let data_to_show :=
    match placemarks with
    | Some given => given
    | None => get_placemarks self
    end in
  match data_to_show with
  | [] => SummaryNoData
  | _ :: _ =>
      let total_count := Z.of_nat (length data_to_show) in
      let with_coords :=
        Z.of_nat (length (List.filter has_coordinates data_to_show)) in
      let without_coords := (total_count - with_coords)%Z in
      SummaryCounts total_count with_coords without_coords
        (if (0 <? without_coords)%Z
         then map (fun ip : nat * Placemark F => (ip.1, name ip.2))
                (List.filter (fun ip : nat * Placemark F => lacks_coordinate ip.2)
                   (enumerate 1 data_to_show))
         else [])
  end.

(** [writable]: opening and writing the file do not raise [IOError]. *)
Definition save_to_csv (self : KMLParser)
    (placemarks : option (list (Placemark F))) (writable : bool) : saved F :=
  let data_to_save :=
    match placemarks with
    | Some given => given
    | None => get_placemarks self
    end in
  match data_to_save with
  | [] => NothingToSave
  | _ :: _ => if writable then Written data_to_save else WriteFailed
  end.

(** The value returned, what [show_summary] prints and what [save_to_csv]
    does, for the calls that are made. *)
Definition download_and_parse_to_csv (url : parsed_url)
    (download_kml : str -> bool) (kml_file : parse_result) (writable : bool)
  : bool * option summary * option (saved F) :=
  if download_from_maps_url url download_kml then
    let map_id :=
      match extract_map_id url with
      | Some ((_ :: _) as map_id) => map_id
      | _ => []
      end in
    let kml_parser := mkKMLParser [] in
    let '(kml_parser, placemarks, _) :=
      extract_placemarks_from_kml float charref_sub kml_parser kml_file
        map_id in
    let shown := show_summary kml_parser None in
    match placemarks with
    | _ :: _ => (true, Some shown, Some (save_to_csv kml_parser None writable))
    | [] => (false, Some shown, None)
    end
  else (false, None, None).

(** [download_multiple_maps_to_csv] with its closing summary: it returns
    with the rows handed to [save_to_csv], or the summary ends it with a
    [KeyError]. *)
Inductive run_result : Type :=
| RunReturned (ok : bool) (rows : option (list (Placemark F)))
| RunKeyError.

Definition download_multiple_maps_run (map_sources : list (Source * fetched))
  : run_result :=
  let st := merge_loop float charref_sub 1 map_sources merge_init in
  match all_placemarks st with
  | [] => RunReturned false None
  | _ :: _ =>
      match closing_summary (map_sources.*1) (all_placemarks st) with
      | Some _ => RunReturned true (Some (all_placemarks st))
      | None => RunKeyError
      end
  end.

End Tools.

(** ** Exceptions

    The definitions so far give what a call returns, prints and does to the
    state when no exception leaves it.  The definitions of this part, with
    names that end in [_exc], are the same functions together with the
    exceptions that the source does not catch.  Printing is taken to succeed
    and memory to suffice. *)

Inductive exception : Type :=
| ValueError
| LookupError
| OSError
| RecursionError
| KeyError.

Inductive outcome (A : Type) : Type :=
| Returned (value : A)
| Raised (e : exception).
Arguments Returned {A}.
Arguments Raised {A}.

(** [ET.parse(kml_file)] in full: it gives a [parse_result] (the tree, or one
    of the two exceptions that line 93 catches), or it raises another
    exception, which line 93 lets through: [ValueError] for a declared
    multi-byte encoding, [LookupError] for an unknown encoding, an [OSError]
    other than [FileNotFoundError] (a directory, a file that may not be
    read). *)
Inductive parse_outcome : Type :=
| ParseGives (kml_file : parse_result)
| ParseRaises (e : exception).

(** What the network and the file system do for one entry of [map_sources]:
    [download_from_maps_url], which catches every exception, returns [False],
    or it returns [True] and leaves a file on which [ET.parse] then runs. *)
Inductive retrieved : Type :=
| NoFile
| File (kml_file : parse_outcome).

Section Exceptions.

Context {F : Type}.
Variable float : str -> option F.
Variable charref_sub : str -> str.

(** [_charref.sub(_replace_charref, s)] raises: [_replace_charref] passes
    the digits of a reference [&#digits] to [int], which raises [ValueError]
    when they are more than it converts. *)
Variable charref_error : str -> bool.

(** The number of nested calls of [process_element] that the interpreter
    allows: [sys.getrecursionlimit()] less the frames on the stack when the
    walk starts. *)
Variable recursion_limit : nat.

(** The frames that the calls made for an element other than those to
    [process_element] need: [find], [clean_html_tags], [parse_coordinates]
    and what they call in turn. *)
Variable library_frames : Element -> nat.

Definition html_unescape_exc (s : str) : outcome str :=
  if existsb (N.eqb (ch "&")) s then
    if charref_error s then Raised ValueError else Returned (charref_sub s)
  else Returned s.

Definition clean_html_tags_exc (text : option str) : outcome str :=
  match text with
  | None | Some [] => Returned []
  | Some text =>
      let text := re_sub pat_cdata 0 text in
      let text := re_sub pat_tag 0 text in
      match html_unescape_exc text with
      | Returned text => Returned (strip (re_sub pat_ws 0 text))
      | Raised e => Raised e
      end
  end.

(** The dict [data] built in the Placemark branch, unless [clean_html_tags]
    raises. *)
Definition placemark_data_exc (source_mid : str) (element : Element)
    (folder_path : option str) : outcome (Placemark F) :=
  let raw_description :=
    text_or_empty (find_child (kml (lit "description")) element) in
  match clean_html_tags_exc raw_description with
  | Raised e => Raised e
  | Returned description =>
      let '(latitude, longitude) :=
        match find_descendant (kml (lit "coordinates")) element with
        | Some coord_elem => parse_coordinates float (text coord_elem)
        | None => (None, None)
        end in
      Returned
        {| folder := if truthy folder_path then fmt folder_path
                     else ROOT_LABEL;
           name := text_or_empty (find_child (kml (lit "name")) element);
           description := description;
           style_url :=
             text_or_empty (find_child (kml (lit "styleUrl")) element);
           latitude := latitude;
           longitude := longitude;
           source := source_mid |}
  end.

(** The activation of [process_element] on [element] at [depth], or a
    library call it makes, exceeds the recursion limit; the root is at
    depth 1. *)
Definition overflows (depth : nat) (element : Element) : bool :=
  recursion_limit <? depth + library_frames element.

(** The closure [process_element] at [depth]: the parser it leaves and the
    exception that ends it, if any.  The loops over the children stop at the
    first exception. *)
Fixpoint process_element_exc (depth : nat) (source_mid : str)
    (element : Element) (folder_path : option str) (self : KMLParser)
  : KMLParser * option exception :=
  if overflows depth element then (self, Some RecursionError)
  else if is_folder element then
    fold_left
      (fun acc child =>
         match acc with
         | (self, None) =>
             process_element_exc (S depth) source_mid child
               (current_folder_path folder_path element) self
         | (_, Some _) => acc
         end)
      (children element) (self, None)
  else if is_placemark element then
    match placemark_data_exc source_mid element folder_path with
    | Returned data => (mkKMLParser (placemarks self ++ [data]), None)
    | Raised e => (self, Some e)
    end
  else
    fold_left
      (fun acc child =>
         match acc with
         | (self, None) =>
             process_element_exc (S depth) source_mid child folder_path self
         | (_, Some _) => acc
         end)
      (children element) (self, None).

(** The parser after the call, the list returned or the exception raised,
    and what was printed. *)
Definition extract_placemarks_from_kml_exc (self : KMLParser (F:=F))
    (kml_file : parse_outcome) (source_mid : str)
  : KMLParser * outcome (list (Placemark F)) * list message :=
  let self := mkKMLParser [] in
  match kml_file with
  | ParseGives (Tree root) =>
      match process_element_exc 1 source_mid root (Some []) self with
      | (self, None) => (self, Returned (placemarks self), [])
      | (self, Some e) => (self, Raised e, [])
      end
  | ParseGives ParseError | ParseGives FileNotFoundError =>
      (self, Returned [], [MsgFileError])
  | ParseRaises e => (self, Raised e, [])
  end.

(** The body of [for i, source in enumerate(map_sources, 1)]; nothing in it
    catches what [extract_placemarks_from_kml] raises. *)
Definition merge_source_exc (i : nat) (source : Source) (got : retrieved)
    (st : merge_state) : outcome merge_state :=
  match got with
  | File kml_file =>
      match extract_placemarks_from_kml_exc (kml_parser st) kml_file
              (mid source) with
      | (_, Raised e, _) => Raised e
      | (parser, Returned placemarks, printed) =>
          match placemarks with
          | _ :: _ =>
              if Nat.eqb i 1 then
                Returned
                  {| all_placemarks := all_placemarks st ++ placemarks;
                     primary_map_records :=
                       index_primary (primary_map_records st) placemarks;
                     kml_parser := parser;
                     stdout := stdout st ++ printed
                                 ++ [MsgPrimary i (length placemarks)] |}
              else
                let '(all, added_count, skipped_count) :=
                  fold_left (merge_placemark (primary_map_records st))
                    placemarks (all_placemarks st, 0, 0) in
                Returned
                  {| all_placemarks := all;
                     primary_map_records := primary_map_records st;
                     kml_parser := parser;
                     stdout := stdout st ++ printed
                                 ++ [MsgSecondary i (length placemarks)
                                       added_count skipped_count] |}
          | [] =>
              Returned
                {| all_placemarks := all_placemarks st;
                   primary_map_records := primary_map_records st;
                   kml_parser := parser;
                   stdout := stdout st ++ printed ++ [MsgNoPlacemarks i] |}
          end
      end
  | NoFile =>
      Returned
        {| all_placemarks := all_placemarks st;
           primary_map_records := primary_map_records st;
           kml_parser := kml_parser st;
           stdout := stdout st ++ [MsgDownloadFailed i] |}
  end.

Fixpoint merge_loop_exc (i : nat) (map_sources : list (Source * retrieved))
    (st : merge_state) : outcome merge_state :=
  match map_sources with
  | [] => Returned st
  | (source, got) :: rest =>
      match merge_source_exc i source got st with
      | Returned st => merge_loop_exc (S i) rest st
      | Raised e => Raised e
      end
  end.

(** The value returned, the rows handed to [save_to_csv] (if any) and what
    the loop printed, or the exception raised to the caller. *)
Definition download_multiple_maps_to_csv_exc
    (map_sources : list (Source * retrieved))
  : outcome (bool * option (list (Placemark F)) * list message) :=
  match merge_loop_exc 1 map_sources merge_init with
  | Raised e => Raised e
  | Returned st =>
      match all_placemarks st with
      | [] => Returned (false, None, stdout st ++ [MsgNothingToSave])
      | _ :: _ =>
          match closing_summary (map_sources.*1) (all_placemarks st) with
          | Some _ => Returned (true, Some (all_placemarks st), stdout st)
          | None => Raised KeyError
          end
      end
  end.

(** *** Vocabulary *)

(** The nodes on which the walk calls [process_element], unless an exception
    ends it before: those that do not lie inside a Placemark. *)
Definition visited (root : Element) : list (list Element * Element) :=
  List.filter (fun n => forallb (fun a => negb (is_placemark a)) n.1)
    (nodes [] root).

(** The activation on the node [n] and its library calls stay within the
    recursion limit. *)
Definition fits (n : list Element * Element) : Prop :=
  S (length n.1) + library_frames n.2 <= recursion_limit.

(** [clean_html_tags] raises on the description of [element]. *)
Definition description_raises (element : Element) : bool :=
  match clean_html_tags_exc
          (text_or_empty (find_child (kml (lit "description")) element)) with
  | Raised _ => true
  | Returned _ => false
  end.

Definition decodable (n : list Element * Element) : Prop :=
  description_raises n.2 = false.

(** The exception that the activation on the node [n] raises by itself. *)
Definition node_exception (n : list Element * Element) : option exception :=
  if overflows (S (length n.1)) n.2 then Some RecursionError
  else if is_placemark n.2 && description_raises n.2 then Some ValueError
  else None.

(** The walk along the nodes [ns] in document order: the visited nodes
    before the first exception, and that exception. *)
Fixpoint walked_nodes (ns : list (list Element * Element))
  : list (list Element * Element) * option exception :=
  match ns with
  | [] => ([], None)
  | n :: rest =>
      if forallb (fun a => negb (is_placemark a)) n.1 then
        match node_exception n with
        | Some e => ([], Some e)
        | None => let '(before, e) := walked_nodes rest in (n :: before, e)
        end
      else walked_nodes rest
  end.

(** What a source is for the loop when nothing is raised, the records the
    extractor returns for it, and the exception it raises. *)
Definition as_fetched (got : retrieved) : fetched :=
  match got with
  | File (ParseGives kml_file) => Downloaded kml_file
  | File (ParseRaises _) | NoFile => DownloadFailed
  end.

Definition source_outcome (sg : Source * retrieved)
  : outcome (list (Placemark F)) :=
  match sg.2 with
  | File kml_file =>
      (extract_placemarks_from_kml_exc (mkKMLParser []) kml_file
         (mid sg.1)).1.2
  | NoFile => Returned []
  end.

Definition source_records_exc (sg : Source * retrieved)
  : list (Placemark F) :=
  match source_outcome sg with
  | Returned placemarks => placemarks
  | Raised _ => []
  end.

Definition source_exception (sg : Source * retrieved) : option exception :=
  match source_outcome sg with
  | Returned _ => None
  | Raised e => Some e
  end.

(** The rows at the end of the loop, or the exception that ends it. *)
Definition merged_rows_exc (map_sources : list (Source * retrieved))
  : outcome (list (Placemark F)) :=
  match merge_loop_exc 1 map_sources merge_init with
  | Returned st => Returned (all_placemarks st)
  | Raised e => Raised e
  end.

End Exceptions.

(** *** An instance for the examples *)

(** [int] refuses a decimal numeral of more than
    [sys.get_int_max_str_digits()] digits, 4300 unless it was changed. *)
Definition INT_MAX_STR_DIGITS : nat := 4300.

(** Some [&#] is followed by more digits than that. *)
Fixpoint long_decimal_reference (s : str) : bool :=
  match s with
  | [] => false
  | a :: r =>
      match r with
      | b :: r' =>
          (a =? ch "&")%N && (b =? ch "#")%N
          && (INT_MAX_STR_DIGITS <? length (take_while is_digit r'))
      | [] => false
      end
      || long_decimal_reference r
  end.

(** An interpreter at its most generous: the 1000 frames of the default
    recursion limit all left to the walk, and library calls that need
    none. *)
Definition DEFAULT_RECURSION_LIMIT : nat := 1000.
Definition no_library_frames (element : Element) : nat := 0.

Definition extract_ascii_exc (kml_file : parse_outcome) (source_mid : str)
  : outcome (list (Placemark float64)) :=
  (extract_placemarks_from_kml_exc float_ascii no_charref
     long_decimal_reference DEFAULT_RECURSION_LIMIT no_library_frames
     (mkKMLParser []) kml_file source_mid).1.2.

Definition merge_ascii_exc (map_sources : list (Source * retrieved))
  : outcome (bool * option (list (Placemark float64)) * list message) :=
  download_multiple_maps_to_csv_exc float_ascii no_charref
    long_decimal_reference DEFAULT_RECURSION_LIMIT no_library_frames
    map_sources.

(** A Placemark below [n] nested elements. *)
Fixpoint nested (n : nat) (e : Element) : Element :=
  match n with
  | O => e
  | S k => elem "Document" [nested k e]
  end.

Definition doc_deep : Element :=
  elem "kml" [nested 1000 (placemark_at "P" "121.5,23.6,0")].

(** A Placemark with a decimal character reference of 4301 digits in its
    description. *)
Definition long_reference : str := lit "&#" ++ repeat (ch "1") 4301.

Definition doc_long_reference : Element :=
  document
    [ elem "Placemark"
        [ leaf_text "name" "P";
          Elem (kml (lit "description")) (Some long_reference) [] ] ].

(** Maps with a name, as [main] gives them. *)
Definition named_map (id name : String.string) (got : fetched)
  : Source * fetched :=
  (mkSource (lit id) (Some (lit name)), got).
Arguments named_map (id name)%_string got.

Definition named_file (id name : String.string) (got : retrieved)
  : Source * retrieved :=
  (mkSource (lit id) (Some (lit name)), got).
Arguments named_file (id name)%_string got.

Definition two_named_maps : list (Source * fetched) :=
  [ named_map "m1" "one" (Downloaded (Tree doc_primary));
    named_map "m2" "two" (Downloaded (Tree doc_second)) ].

(** A run in which the file of the second map is missing, one in which it
    declares an encoding that the parser does not support, and one in which
    it is nested too deep. *)
Definition files_second_missing : list (Source * retrieved) :=
  [ named_file "m1" "one" (File (ParseGives (Tree doc_primary)));
    named_file "m2" "two" (File (ParseGives FileNotFoundError));
    named_file "m3" "three" (File (ParseGives (Tree doc_third))) ].

Definition files_second_unsupported : list (Source * retrieved) :=
  [ named_file "m1" "one" (File (ParseGives (Tree doc_primary)));
    named_file "m2" "two" (File (ParseRaises ValueError));
    named_file "m3" "three" (File (ParseGives (Tree doc_third))) ].

Definition files_second_deep : list (Source * retrieved) :=
  [ named_file "m1" "one" (File (ParseGives (Tree doc_primary)));
    named_file "m2" "two" (File (ParseGives (Tree doc_deep)));
    named_file "m3" "three" (File (ParseGives (Tree doc_third))) ].


(** * Properties *)

(** ** Strings *)

Lemma startswith_app (p r : str) : startswith p (p ++ r) = true.
Proof.
  induction p as [|a p IH]; simpl; [done|].
  by rewrite N.eqb_refl.
Qed.

Lemma startswith_inv (p t : str) :
  startswith p t = true → ∃ r, t = p ++ r.
Proof.
  revert t; induction p as [|a p IH]; intros t H.
  - by exists t.
  - destruct t as [|b t]; [done|]. simpl in H.
    apply andb_true_iff in H as [Hab Hp]. apply N.eqb_eq in Hab as ->.
    destruct (IH _ Hp) as [r ->]. by exists r.
Qed.

Lemma take_drop_while (p : char → bool) (t : str) :
  take_while p t ++ drop_while p t = t.
Proof.
  induction t as [|c r IH]; simpl; [done|].
  destruct (p c); simpl; [by rewrite IH | done].
Qed.

Lemma take_while_Forall (p : char → bool) (t : str) :
  Forall (λ c, p c = true) (take_while p t).
Proof.
  induction t as [|c r IH]; simpl; [constructor|].
  destruct (p c) eqn:E; by constructor.
Qed.

Lemma drop_while_head (p : char → bool) (t : str) c r :
  drop_while p t = c :: r → p c = false.
Proof.
  induction t as [|d t IH]; simpl; [done|].
  destruct (p d) eqn:E; [done|]. by intros [= <- <-].
Qed.

Lemma drop_while_length (p : char → bool) (t : str) :
  length (drop_while p t) ≤ length t.
Proof.
  induction t as [|c r IH]; simpl; [lia|]. destruct (p c); simpl; lia.
Qed.

Lemma drop_while_idemp (p : char → bool) (t : str) :
  drop_while p (drop_while p t) = drop_while p t.
Proof.
  induction t as [|c r IH]; simpl; [done|].
  destruct (p c) eqn:E; [done|]. simpl. by rewrite E.
Qed.

Lemma drop_take_while (p : char → bool) (t : str) :
  drop (length (take_while p t)) t = drop_while p t.
Proof.
  induction t as [|c r IH]; simpl; [done|]. by destruct (p c).
Qed.

Lemma drop_while_app (p : char → bool) (x y : str) :
  drop_while p x ≠ [] → drop_while p (x ++ y) = drop_while p x ++ y.
Proof.
  induction x as [|c x IH]; simpl; [done|]. by destruct (p c).
Qed.

Lemma drop_while_all (p : char → bool) (x y : str) :
  Forall (λ c, p c = true) x → drop_while p (x ++ y) = drop_while p y.
Proof.
  induction 1 as [|c x Hc _ IH]; simpl; [done|]. by rewrite Hc.
Qed.

Lemma take_while_app_stop (p : char → bool) (w r : str) :
  Forall (λ c, p c = true) w → take_while p (w ++ r) = w ++ take_while p r.
Proof.
  induction 1 as [|c x Hc _ IH]; simpl; [done|]. by rewrite Hc, IH.
Qed.

(** ** [re.sub] *)

Lemma re_sub_skip (pat : pattern) (k : nat) (t : str) :
  re_sub pat k t = re_sub pat 0 (drop k t).
Proof.
  revert k; induction t as [|c r IH]; intros [|k]; simpl; try done.
Qed.

Lemma re_sub_no_match (pat : pattern) (t : str) :
  (∀ k, pat (drop k t) = None) → re_sub pat 0 t = t.
Proof.
  induction t as [|c r IH]; intros H; [done|].
  pose proof (H 0) as H0. simpl in *. rewrite H0. f_equal.
  apply IH. intros k. apply (H (S k)).
Qed.

Lemma re_sub_match (pat : pattern) (t repl : str) (len : nat) :
  pat t = Some (repl, len) → 0 < len → t ≠ [] →
  re_sub pat 0 t = repl ++ re_sub pat 0 (drop len t).
Proof.
  intros H Hlen Ht. destruct t as [|c r]; [done|].
  simpl. rewrite H, re_sub_skip. destruct len; [lia|]. done.
Qed.

(** ** Collapsing whitespace *)

Lemma sub_ws_nonspace (c : char) (r : str) :
  isspace c = false →
  re_sub pat_ws 0 (c :: r) = c :: re_sub pat_ws 0 r.
Proof.
  intros Hc. simpl. unfold pat_ws. simpl. by rewrite Hc.
Qed.

Lemma sub_ws_space (c : char) (r : str) :
  isspace c = true →
  re_sub pat_ws 0 (c :: r) = ch " " :: re_sub pat_ws 0 (drop_while isspace r).
Proof.
  intros Hc. simpl. unfold pat_ws. simpl. rewrite Hc. simpl.
  by rewrite re_sub_skip, drop_take_while.
Qed.

Lemma sub_ws_word (w r : str) :
  Forall (λ c, nonspace c = true) w →
  re_sub pat_ws 0 (w ++ r) = w ++ re_sub pat_ws 0 r.
Proof.
  induction 1 as [|c w Hc _ IH]; [done|].
  rewrite <- !app_comm_cons, sub_ws_nonspace, IH; [done|].
  unfold nonspace in Hc. by destruct (isspace c).
Qed.

Lemma lstrip_sub_ws (t : str) :
  lstrip (re_sub pat_ws 0 t) = re_sub pat_ws 0 (lstrip t).
Proof.
  unfold lstrip. destruct t as [|c r]; [done|].
  destruct (isspace c) eqn:Hc.
  - rewrite sub_ws_space by done. simpl. rewrite Hc.
    destruct (drop_while isspace r) as [|d r'] eqn:Hd; [done|].
    apply drop_while_head in Hd.
    rewrite sub_ws_nonspace by done. simpl drop_while. by rewrite Hd.
  - rewrite sub_ws_nonspace by done. simpl drop_while. rewrite Hc.
    by rewrite sub_ws_nonspace.
Qed.

Lemma rstrip_app (a b : str) : rstrip b ≠ [] → rstrip (a ++ b) = a ++ rstrip b.
Proof.
  unfold rstrip. intros Hb. rewrite rev_app_distr, drop_while_app.
  - by rewrite rev_app_distr, rev_involutive.
  - intros E. by rewrite E in Hb.
Qed.

Lemma rstrip_snoc_space (a : str) (c : char) :
  isspace c = true → rstrip (a ++ [c]) = rstrip a.
Proof.
  intros Hc. unfold rstrip. rewrite rev_app_distr. simpl. by rewrite Hc.
Qed.

Lemma rstrip_word (w : str) :
  Forall (λ c, nonspace c = true) w → rstrip w = w.
Proof.
  intros Hw. unfold rstrip.
  destruct (rev w) as [|c x] eqn:E.
  - apply (f_equal (@rev _)) in E. rewrite rev_involutive in E. by subst.
  - assert (nonspace c = true) as Hc.
    { rewrite Forall_forall in Hw. apply Hw. apply list_elem_of_In, in_rev.
      rewrite E. by left. }
    simpl. unfold nonspace in Hc. destruct (isspace c); [done|].
    by rewrite <- E, rev_involutive.
Qed.

Lemma words_upto_nil (n : nat) : words_upto n [] = [].
Proof. by destruct n. Qed.

Lemma words_upto_lstrip (n : nat) (t : str) :
  words_upto n (drop_while isspace t) = words_upto n t.
Proof. destruct n; simpl; [done|]. by rewrite drop_while_idemp. Qed.

Lemma join_spaces_cons (w : str) (ws : list str) :
  ws ≠ [] → join_spaces (w :: ws) = w ++ ch " " :: join_spaces ws.
Proof. by destruct ws. Qed.

Lemma join_spaces_nonempty (w : str) (ws : list str) :
  w ≠ [] → join_spaces (w :: ws) ≠ [].
Proof. destruct ws; simpl; [done|]. by destruct w. Qed.

(** The collapsed text, stripped on the right, is the words of the text
    joined by single spaces. *)
Lemma rstrip_sub_ws_words (n : nat) (t : str) :
  length t ≤ n → drop_while isspace t = t →
  rstrip (re_sub pat_ws 0 t) = join_spaces (words_upto n t).
Proof.
  revert t; induction n as [|n IH]; intros t Hlen Ht.
  { destruct t; [done | simpl in Hlen; lia]. }
  destruct t as [|c r]; [done|].
  cbn [words_upto]. rewrite Ht.
  assert (isspace c = false) as Hc by (by apply drop_while_head in Ht).
  set (t := c :: r) in *.
  pose proof (take_drop_while nonspace t) as Hsplit.
  pose proof (take_while_Forall nonspace t) as Hw.
  assert (take_while nonspace t ≠ []) as Hne.
  { unfold t. simpl. unfold nonspace at 1. by rewrite Hc. }
  assert (length (drop_while nonspace t) ≤ n) as Hrest.
  { apply (f_equal (@length _)) in Hsplit. rewrite length_app in Hsplit.
    destruct (take_while nonspace t); [done|]. simpl in *. lia. }
  rewrite <- Hsplit at 1. rewrite sub_ws_word by done.
  destruct (drop_while nonspace t) as [|s r'] eqn:Hd.
  - rewrite words_upto_nil. simpl. rewrite app_nil_r. by apply rstrip_word.
  - assert (isspace s = true) as Hs.
    { apply drop_while_head in Hd. unfold nonspace in Hd.
      by destruct (isspace s). }
    rewrite sub_ws_space by done.
    rewrite <- (words_upto_lstrip n (s :: r')). simpl drop_while at 2.
    rewrite Hs.
    pose proof (drop_while_length isspace r') as Hl.
    specialize (IH (drop_while isspace r')). rewrite drop_while_idemp in IH.
    simpl in Hrest. specialize (IH ltac:(lia) eq_refl).
    destruct (drop_while isspace r') as [|d r''] eqn:Hd'.
    + rewrite words_upto_nil. simpl re_sub.
      change (?w ++ [?x]) with (w ++ [x]).
      rewrite rstrip_snoc_space by done. by apply rstrip_word.
    + destruct n as [|n']; [simpl in *; lia|].
      assert (isspace d = false) as Hdsp by (by apply drop_while_head in Hd').
      assert (words_upto (S n') (d :: r'') ≠ []) as Hws.
      { simpl. by rewrite Hdsp. }
      rewrite (cons_middle (ch " ")), app_assoc.
      rewrite rstrip_app.
      * rewrite IH, <- app_assoc, join_spaces_cons by done. done.
      * rewrite IH. cbn [words_upto drop_while]. rewrite Hdsp.
        apply join_spaces_nonempty. simpl. unfold nonspace at 1.
        by rewrite Hdsp.
Qed.

Lemma strip_sub_ws (t : str) :
  strip (re_sub pat_ws 0 t) = join_spaces (words t).
Proof.
  unfold strip, words. rewrite lstrip_sub_ws. unfold lstrip.
  rewrite <- words_upto_lstrip. apply rstrip_sub_ws_words.
  - apply drop_while_length.
  - apply drop_while_idemp.
Qed.

(** ** The patterns of [clean_html_tags] *)

Lemma pat_tag_Some (s : str) x :
  pat_tag s = Some x →
  ∃ b c, s = ch "<" :: b ++ ch ">" :: c ∧ b ≠ [] ∧ ch ">" ∉ b.
Proof.
  destruct s as [|c0 r]; [done|]. unfold pat_tag.
  destruct (c0 =? ch "<")%N eqn:E0; [|done]. apply N.eqb_eq in E0 as ->.
  pose proof (take_drop_while not_gt r) as Hsplit.
  pose proof (take_while_Forall not_gt r) as Hbody.
  destruct (take_while not_gt r) as [|b0 b] eqn:Eb; [done|].
  destruct (drop_while not_gt r) as [|g c] eqn:Ec; [done|].
  intros _. apply drop_while_head in Ec. unfold not_gt in Ec.
  apply negb_false_iff, N.eqb_eq in Ec as ->.
  exists (b0 :: b), c. split; [by rewrite Hsplit|]. split; [done|].
  intros Hin. rewrite Forall_forall in Hbody. apply Hbody in Hin.
  unfold not_gt in Hin. by rewrite N.eqb_refl in Hin.
Qed.

Lemma lazy_until_Some (close t inner : str) :
  lazy_until close t = Some inner → ∃ rest, t = inner ++ close ++ rest.
Proof.
  revert inner; induction t as [|c r IH]; intros inner; simpl.
  - destruct (startswith close []) eqn:E; [|done].
    intros [= <-]. by apply startswith_inv in E.
  - destruct (startswith close (c :: r)) eqn:E.
    + intros [= <-]. by apply startswith_inv in E.
    + destruct (lazy_until close r) as [i|]; [|done].
      intros [= <-]. destruct (IH i eq_refl) as [rest ->]. by exists rest.
Qed.

Lemma pat_cdata_Some (s inner : str) (len : nat) :
  pat_cdata s = Some (inner, len) →
  ∃ rest, s = CDATA_OPEN ++ inner ++ CDATA_CLOSE ++ rest.
Proof.
  unfold pat_cdata. destruct (startswith CDATA_OPEN s) eqn:E; [|done].
  apply startswith_inv in E as [r ->].
  rewrite drop_app_length.
  destruct (lazy_until CDATA_CLOSE r) as [i|] eqn:El; [|done].
  intros [= <- _]. apply lazy_until_Some in El as [rest ->]. by exists rest.
Qed.

Lemma no_tag_sub (t : str) : no_tag t → re_sub pat_tag 0 t = t.
Proof.
  intros H. apply re_sub_no_match. intros k.
  destruct (pat_tag (drop k t)) as [x|] eqn:E; [|done].
  apply pat_tag_Some in E as (b & c & E & Hb & Hgt).
  destruct (H (take k t) b c Hb Hgt). by rewrite <- E, take_drop.
Qed.

Lemma no_wrapper_sub (t : str) : no_wrapper t → re_sub pat_cdata 0 t = t.
Proof.
  intros H. apply re_sub_no_match. intros k.
  destruct (pat_cdata (drop k t)) as [[inner len]|] eqn:E; [|done].
  apply pat_cdata_Some in E as (rest & E).
  destruct (H (take k t) inner rest). by rewrite <- E, take_drop.
Qed.

Lemma no_lt_no_tag (t : str) : ch "<" ∉ t → no_tag t.
Proof.
  intros H a b c _ _ ->. apply H. set_solver.
Qed.

Lemma no_lt_no_wrapper (t : str) : ch "<" ∉ t → no_wrapper t.
Proof.
  intros H a b c ->. apply H. unfold CDATA_OPEN. simpl. set_solver.
Qed.

Lemma no_amp_unescape (charref_sub : str → str) (t : str) :
  ch "&" ∉ t → html_unescape charref_sub t = t.
Proof.
  intros H. unfold html_unescape.
  destruct (existsb (N.eqb (ch "&")) t) eqn:E; [|done].
  apply existsb_exists in E as (x & Hx & Heq). apply N.eqb_eq in Heq as <-.
  by apply list_elem_of_In in Hx.
Qed.

(** ** The text sanitizer *)

(** [clean_html_tags] raises nothing but the [ValueError] of
    [html.unescape], and what it returns is what [clean_html_tags] gives. *)
Lemma clean_html_tags_exc_cases (charref_sub : str → str)
    (charref_error : str → bool) (text : option str) :
  let clean := clean_html_tags_exc charref_sub charref_error in
  clean text = Returned (clean_html_tags charref_sub text)
  ∨ clean text = Raised ValueError
    ∧ ∃ t, text = Some t
           ∧ charref_error (re_sub pat_tag 0 (re_sub pat_cdata 0 t)) = true.
Proof.
  destruct text as [[|c r]|]; [by left | | by left].
  unfold clean_html_tags_exc, clean_html_tags, html_unescape_exc,
    html_unescape.
  destruct (existsb _ _); [|by left].
  destruct (charref_error _) eqn:E; [|by left].
  right. split; [done|]. by exists (c :: r).
Qed.

(** A text in which the opening marker starts nowhere has no wrapper. *)
Lemma no_wrapper_check (t : str) :
  forallb (λ k, negb (startswith CDATA_OPEN (drop k t))) (seq 0 (length t))
  = true →
  no_wrapper t.
Proof.
  intros H a b c E. rewrite forallb_forall in H.
  assert (length a < length t) as Hlen.
  { rewrite E, !length_app. unfold CDATA_OPEN. simpl. lia. }
  specialize (H (length a) ltac:(apply in_seq; lia)).
  rewrite E, drop_app_length in H.
  by rewrite (startswith_app CDATA_OPEN) in H.
Qed.

(** C8 (as amended).  On a text without wrapper, without a match of the tag
    pattern (a [<], at least one character other than [>], then a [>]) and
    which the entity decoder leaves as it is, [clean_html_tags] returns the
    words of the text joined by single spaces: runs of whitespace are
    collapsed and the ends are trimmed, nothing else changes.  On [None] and
    on the empty string it returns the empty string.  On every input it
    returns what [clean_html_tags] gives, unless [html.unescape] raises on
    the text left by the two substitutions: then it raises that
    [ValueError]. *)
Theorem clean_html_tags_plain_text (charref_sub : str → str)
    (charref_error : str → bool) :
  let clean := clean_html_tags_exc charref_sub charref_error in
  let unescape := html_unescape_exc charref_sub charref_error in
  clean None = Returned []
  ∧ clean (Some []) = Returned []
  ∧ (∀ t : str,
       no_wrapper t → no_tag t → unescape t = Returned t →
       clean (Some t) = Returned (join_spaces (words t)))
  ∧ (∀ text,
       clean text = Returned (clean_html_tags charref_sub text)
       ∨ clean text = Raised ValueError
         ∧ ∃ t, text = Some t
                ∧ unescape (re_sub pat_tag 0 (re_sub pat_cdata 0 t))
                  = Raised ValueError).
Proof.
  intros clean unescape. split; [done|]. split; [done|]. split.
  - intros t Hw Ht He. destruct t as [|c r]; [done|].
    unfold clean, clean_html_tags_exc. fold unescape.
    by rewrite (no_wrapper_sub _ Hw), (no_tag_sub _ Ht), He, strip_sub_ws.
  - intros text.
    destruct (clean_html_tags_exc_cases charref_sub charref_error text)
      as [H | (H & t & -> & Herr)]; [by left|].
    right. split; [done|]. exists t. split; [done|].
    unfold unescape, html_unescape_exc. rewrite Herr.
    destruct (existsb _ _) eqn:E; [done|].
    destruct t as [|c r]; [done|].
    unfold clean_html_tags_exc, html_unescape_exc in H. by rewrite E in H.
Qed.

Lemma clean_html_tags_plain_text_witness :
  let t := lit "  hello   world  " in
  no_wrapper t ∧ no_tag t
  ∧ html_unescape_exc no_charref long_decimal_reference t = Returned t
  ∧ clean_html_tags_exc no_charref long_decimal_reference (Some t)
    = Returned (lit "hello world").
Proof.
  intros t.
  assert (ch "<" ∉ t) as Hlt
    by (by apply (proj1 (bool_decide_eq_false (ch "<" ∈ t))); vm_compute).
  split; [by apply no_lt_no_wrapper|].
  split; [by apply no_lt_no_tag|].
  split; [reflexivity|].
  destruct (clean_html_tags_plain_text no_charref long_decimal_reference)
    as (_ & _ & H & _).
  rewrite (H t).
  - reflexivity.
  - by apply no_lt_no_wrapper.
  - by apply no_lt_no_tag.
  - reflexivity.
Defined.

(** C8 as stated fails.  The text [x < 5 and y > 3] has no wrapper, no tag
    of markup (its [<] is followed by a space) and no entity, and its
    whitespace is already collapsed; the tag pattern matches from its [<] to
    its [>] all the same, and the result is [x 3].  And the function does
    fail on some input: on a decimal character reference of 4301 digits
    [html.unescape] raises [ValueError]. *)
Lemma clean_html_tags_plain_text_mangled :
  let clean := clean_html_tags_exc no_charref long_decimal_reference in
  let t := lit "x < 5 and y > 3" in
  let u := long_reference in
  no_wrapper t ∧ no_markup_tag t = true ∧ (ch "&" ∉ t)
  ∧ join_spaces (words t) = t
  ∧ clean (Some t) = Returned (lit "x 3")
  ∧ no_wrapper u ∧ no_tag u
  ∧ clean (Some u) = Raised ValueError.
Proof.
  intros clean t u.
  assert (ch "<" ∉ u) as Hlt
    by (by apply (proj1 (bool_decide_eq_false (ch "<" ∈ u))); vm_compute).
  split; [by apply no_wrapper_check|]. split; [reflexivity|].
  split; [by apply (proj1 (bool_decide_eq_false (ch "&" ∈ t)))|].
  split; [reflexivity|]. split; [reflexivity|].
  split; [by apply no_lt_no_wrapper|]. split; [by apply no_lt_no_tag|].
  by vm_compute.
Qed.

(** The characters before position [n] of a text are kept by [re.sub] when
    the pattern matches at none of them. *)
Lemma re_sub_prefix (pat : pattern) (pre t : str) :
  (∀ k, k < length pre → pat (drop k (pre ++ t)) = None) →
  re_sub pat 0 (pre ++ t) = pre ++ re_sub pat 0 t.
Proof.
  induction pre as [|c pre IH]; intros H; [done|].
  pose proof (H 0 ltac:(simpl; lia)) as H0. simpl in *. rewrite H0. f_equal.
  apply IH. intros k Hk. apply (H (S k)). lia.
Qed.

Lemma first_at_before (p t : str) (n k : nat) :
  first_at p t n = true → k < n → startswith p (drop k t) = false.
Proof.
  unfold first_at. intros H Hk. apply andb_true_iff in H as [_ H].
  rewrite forallb_forall in H. apply negb_true_iff, H, in_seq. lia.
Qed.

Lemma first_at_S (p : str) (c : char) (t : str) (n : nat) :
  first_at p (c :: t) (S n) = true → first_at p t n = true.
Proof.
  unfold first_at. intros H. apply andb_true_iff in H as [H1 H2].
  apply andb_true_iff. split; [done|].
  rewrite forallb_forall in *. intros k Hk. apply in_seq in Hk.
  apply (H2 (S k)). apply in_seq. lia.
Qed.

Lemma lazy_until_here (close t : str) :
  startswith close t = true → lazy_until close t = Some [].
Proof. intros H. destruct t; simpl; by rewrite H. Qed.

Lemma lazy_until_first (close inner rest : str) :
  first_at close (inner ++ close ++ rest) (length inner) = true →
  lazy_until close (inner ++ close ++ rest) = Some inner.
Proof.
  induction inner as [|c inner IH]; intros H.
  - apply lazy_until_here. apply (startswith_app close rest).
  - pose proof (first_at_before _ _ _ 0 H ltac:(simpl; lia)) as H0.
    cbn [app lazy_until]. simpl in H0. rewrite H0.
    rewrite IH; [done|]. by apply first_at_S in H.
Qed.

Lemma pat_cdata_first (inner rest : str) :
  first_at CDATA_CLOSE (inner ++ CDATA_CLOSE ++ rest) (length inner) = true →
  pat_cdata (CDATA_OPEN ++ inner ++ CDATA_CLOSE ++ rest)
  = Some (inner, length CDATA_OPEN + length inner + length CDATA_CLOSE).
Proof.
  intros H. unfold pat_cdata.
  rewrite startswith_app, drop_app_length. by rewrite lazy_until_first.
Qed.

Lemma sub_cdata_first (pre inner rest : str) :
  first_at CDATA_OPEN (pre ++ CDATA_OPEN ++ inner ++ CDATA_CLOSE ++ rest)
    (length pre) = true →
  first_at CDATA_CLOSE (inner ++ CDATA_CLOSE ++ rest) (length inner) = true →
  re_sub pat_cdata 0 (pre ++ CDATA_OPEN ++ inner ++ CDATA_CLOSE ++ rest)
  = pre ++ inner ++ re_sub pat_cdata 0 rest.
Proof.
  intros Ho Hc. rewrite re_sub_prefix.
  - f_equal. rewrite (re_sub_match _ _ _ _ (pat_cdata_first _ _ Hc)).
    + f_equal. f_equal.
      rewrite <- !drop_drop. by rewrite !drop_app_length.
    + simpl. lia.
    + done.
  - intros k Hk. unfold pat_cdata.
    by rewrite (first_at_before _ _ _ _ Ho Hk).
Qed.

(** C7 (as amended).  [clean_html_tags] unwraps the first wrapper of the
    text, from the first opening marker to the nearest closing marker after
    it, keeping what comes before and the inner content, and goes on in the
    same way through the rest of the text, so that each further wrapper is
    unwrapped too; all of this before tags are removed and entities are
    decoded.  What an unwrapping leaves is not scanned again. *)
Theorem clean_html_tags_unwraps_each (charref_sub : str → str)
    (pre inner rest : str) :
  first_at CDATA_OPEN (pre ++ CDATA_OPEN ++ inner ++ CDATA_CLOSE ++ rest)
    (length pre) = true →
  first_at CDATA_CLOSE (inner ++ CDATA_CLOSE ++ rest) (length inner) = true →
  clean_html_tags charref_sub
    (Some (pre ++ CDATA_OPEN ++ inner ++ CDATA_CLOSE ++ rest))
  = strip (re_sub pat_ws 0
             (html_unescape charref_sub
                (re_sub pat_tag 0
                   (pre ++ inner ++ re_sub pat_cdata 0 rest)))).
Proof.
  intros Ho Hc. unfold clean_html_tags.
  destruct (pre ++ CDATA_OPEN ++ inner ++ CDATA_CLOSE ++ rest) eqn:E.
  - by destruct pre.
  - rewrite <- E in Ho |- *. by rewrite sub_cdata_first.
Qed.

Lemma clean_html_tags_unwraps_each_witness :
  clean_html_tags no_charref
    (Some (lit "x " ++ CDATA_OPEN ++ lit "<b>a</b>" ++ CDATA_CLOSE
             ++ lit " y <![CDATA[b]]>"))
  = lit "x a y b".
Proof.
  rewrite (clean_html_tags_unwraps_each no_charref (lit "x ") (lit "<b>a</b>")
             (lit " y <![CDATA[b]]>")).
  - reflexivity.
  - reflexivity.
  - reflexivity.
Defined.

(** C7 as stated fails: on a text with two wrappers the contents of both are
    kept, whichever way "exactly one outer wrapper" is read. *)
Lemma clean_html_tags_two_wrappers :
  let t := lit "<![CDATA[a]]><![CDATA[b]]>" in
  clean_html_tags no_charref (Some t) = lit "ab"
  ∧ clean_with no_charref unwrap_outer (Some t) = lit "a]]><![CDATA[b"
  ∧ clean_with no_charref unwrap_first (Some t) = lit "a"
  ∧ clean_html_tags no_charref (Some t)
    ≠ clean_with no_charref unwrap_outer (Some t)
  ∧ clean_html_tags no_charref (Some t)
    ≠ clean_with no_charref unwrap_first (Some t).
Proof. by vm_compute. Qed.

(** ** The coordinate normalizer *)

(** C6 (as amended).  [parse_coordinates] returns the null pair, without
    raising, on a missing, empty or whitespace-only text, on a text with fewer
    than two comma-separated components, and when the first or the second
    component is not accepted by [float]; otherwise it returns the second
    component as latitude and the first as longitude.  Components after the
    second are not looked at. *)
Theorem parse_coordinates_cases {F : Type} (float : str → option F) :
  parse_coordinates float None = (None, None)
  ∧ (∀ t, strip t = [] → parse_coordinates float (Some t) = (None, None))
  ∧ (∀ t, length (split (ch ",") (strip t)) < 2 →
       parse_coordinates float (Some t) = (None, None))
  ∧ (∀ t lng lat rest,
       split (ch ",") (strip t) = lng :: lat :: rest →
       float lat = None ∨ float lng = None →
       parse_coordinates float (Some t) = (None, None))
  ∧ (∀ t lng lat rest x y,
       split (ch ",") (strip t) = lng :: lat :: rest →
       float lat = Some y → float lng = Some x →
       parse_coordinates float (Some t) = (Some y, Some x)).
Proof.
  split; [done|]. unfold parse_coordinates.
  split; [|split; [|split]].
  - intros t Ht. rewrite Ht. by destruct t.
  - intros t Hlen. destruct t as [|c r]; [done|].
    destruct (strip (c :: r)) as [|s0 s]; [done|].
    destruct (split (ch ",") (s0 :: s)) as [|p0 [|p1 ps]];
      [done | done | simpl in Hlen; lia].
  - intros t lng lat rest Hs Hf. destruct t as [|c r]; [done|].
    destruct (strip (c :: r)) as [|s0 s]; [done|]. rewrite Hs.
    destruct Hf as [-> | Hf]; [done|]. rewrite Hf. by destruct (float lat).
  - intros t lng lat rest x y Hs Hy Hx. destruct t as [|c r]; [done|].
    destruct (strip (c :: r)) as [|s0 s]; [done|]. by rewrite Hs, Hy, Hx.
Qed.

Lemma parse_coordinates_examples :
  parse_coordinates float_ascii (Some (lit "121.5,23.6"))
  = (Some (S754_finite false 6642809450371482 (-48)),
     Some (S754_finite false 8549802417586176 (-46)))
  ∧ float_ascii (lit "23.6") = Some (S754_finite false 6642809450371482 (-48))
  ∧ float_ascii (lit "121.5") = Some (S754_finite false 8549802417586176 (-46))
  ∧ parse_coordinates float_ascii (Some (lit "")) = (None, None)
  ∧ parse_coordinates float_ascii (Some (lit " ")) = (None, None)
  ∧ parse_coordinates float_ascii (Some (lit "121.5")) = (None, None)
  ∧ parse_coordinates float_ascii (Some (lit "abc,def")) = (None, None).
Proof.
  destruct (parse_coordinates_cases float_ascii) as (_ & H2 & H3 & H4 & H5).
  split; [|split; [|split; [|split; [|split; [|split]]]]].
  - apply (H5 (lit "121.5,23.6") (lit "121.5") (lit "23.6") []); reflexivity.
  - reflexivity.
  - reflexivity.
  - apply H2. reflexivity.
  - apply H2. reflexivity.
  - apply H3. vm_compute. lia.
  - apply (H4 (lit "abc,def") (lit "abc") (lit "def") []);
      [reflexivity | left; reflexivity].
Defined.

(** C6 as stated fails: the coordinates of a line have a third component,
    [0 121.6], that is not a float, and the first point is returned all the
    same. *)
Lemma parse_coordinates_ignores_later_components :
  let t := lit "121.5,23.6,0 121.6,23.7,0" in
  split (ch ",") (strip t)
  = [lit "121.5"; lit "23.6"; lit "0 121.6"; lit "23.7"; lit "0"]
  ∧ float_ascii (lit "0 121.6") = None
  ∧ parse_coordinates float_ascii (Some t)
    = (Some (S754_finite false 6642809450371482 (-48)),
       Some (S754_finite false 8549802417586176 (-46)))
  ∧ parse_coordinates float_ascii (Some t) ≠ (None, None).
Proof. by vm_compute. Qed.

(** ** The walk over the element tree *)

Lemma Element_ind_nested (P : Element → Prop) :
  (∀ t x cs, Forall P cs → P (Elem t x cs)) → ∀ e, P e.
Proof.
  intros H. fix IH 1. intros [t x cs]. apply H.
  induction cs as [|c cs IHcs]; constructor; [apply IH | apply IHcs].
Qed.

Lemma filter_none {A} (f : A → bool) (l : list A) :
  (∀ x, In x l → f x = false) → List.filter f l = [].
Proof.
  induction l as [|a l IH]; intros H; simpl; [done|].
  rewrite (H a) by (by left). apply IH. intros x Hx. apply H. by right.
Qed.

Lemma folder_not_placemark (e : Element) :
  is_folder e = true → is_placemark e = false.
Proof.
  unfold is_folder, is_placemark, endswith.
  set (f := rev (lit "Folder")). set (p := rev (lit "Placemark")).
  vm_compute in f, p. subst f p.
  destruct (rev (tag e)) as [|c l]; [done|]. cbn [startswith].
  intros H. apply andb_true_iff in H as [H _]. apply N.eqb_eq in H as <-.
  done.
Qed.

Section Walk.

Context {F : Type}.
Variable float : str → option F.
Variable charref_sub : str → str.
Variable source_mid : str.

Local Abbreviation process := (process_element float charref_sub source_mid).
Local Abbreviation data := (placemark_data float charref_sub source_mid).

Local Abbreviation emit := (emitted float charref_sub source_mid).

Lemma process_element_eq (element : Element) (folder_path : option str)
    (self : KMLParser) :
  process element folder_path self =
  if is_folder element then
    fold_left
      (λ self child,
         process child (current_folder_path folder_path element) self)
      (children element) self
  else if is_placemark element then
    mkKMLParser (placemarks self ++ [data element folder_path])
  else
    fold_left (λ self child, process child folder_path self)
      (children element) self.
Proof. by destruct element. Qed.

Lemma nodes_eq (ancestors : list Element) (e : Element) :
  nodes ancestors e
  = (ancestors, e)
    :: flat_map (λ c, nodes (ancestors ++ [e]) c) (children e).
Proof. by destruct e. Qed.

(** Every node below [e] has [e] among the elements above it. *)
Lemma nodes_ancestors (ancestors : list Element) (e : Element) n :
  In n (nodes ancestors e) → ∃ below, n.1 = ancestors ++ below.
Proof.
  revert ancestors n. induction e as [t x cs IH] using Element_ind_nested.
  intros ancestors n. rewrite nodes_eq. simpl. intros [<- | Hin].
  - exists []. by rewrite app_nil_r.
  - apply in_flat_map in Hin as (c & Hc & Hn).
    rewrite Forall_forall in IH.
    apply list_elem_of_In in Hc.
    destruct (IH c Hc _ _ Hn) as [below ->].
    exists (Elem t x cs :: below). by rewrite <- app_assoc.
Qed.

Lemma emitted_below_placemark (ancestors : list Element) (e : Element) :
  is_placemark e = true →
  emit (flat_map (λ c, nodes (ancestors ++ [e]) c) (children e)) = [].
Proof.
  intros He. unfold emitted.
  replace (List.filter reached_placemark _) with (@nil (list Element * Element));
    [done|].
  symmetry. apply filter_none.
  intros n Hn. apply in_flat_map in Hn as (c & _ & Hn).
  apply nodes_ancestors in Hn as [below Hb].
  unfold reached_placemark. rewrite Hb, <- app_assoc, forallb_app. simpl.
  rewrite He. simpl. by rewrite !andb_false_r.
Qed.

Lemma emitted_app (ns1 ns2 : list (list Element * Element)) :
  emit (ns1 ++ ns2) = emit ns1 ++ emit ns2.
Proof. unfold emitted. by rewrite List.filter_app, map_app. Qed.

Lemma walked_path_snoc (ancestors : list Element) (e : Element) :
  walked_path (ancestors ++ [e])
  = if is_folder e then current_folder_path (walked_path ancestors) e
    else walked_path ancestors.
Proof. unfold walked_path. by rewrite fold_left_app. Qed.

(** The walk below [ancestors] appends the records of the reached
    Placemarks of the subtree, in document order. *)
Lemma process_element_emitted (e : Element) :
  ∀ (ancestors : list Element) (self : KMLParser),
    forallb (λ a, negb (is_placemark a)) ancestors = true →
    process e (walked_path ancestors) self
    = mkKMLParser (placemarks self ++ emit (nodes ancestors e)).
Proof.
  induction e as [t x cs IH] using Element_ind_nested.
  intros ancestors self Hanc.
  assert (children (Elem t x cs) = cs) as Hcs by done.
  revert Hcs. generalize (Elem t x cs) as e. intros e Hcs.
  assert (∀ path, path = walked_path (ancestors ++ [e]) →
            is_placemark e = false →
            ∀ self,
              fold_left (λ self child, process child path self) cs self
              = mkKMLParser
                  (placemarks self
                   ++ emit (flat_map (λ c, nodes (ancestors ++ [e]) c) cs)))
    as Hchildren.
  { intros path -> He. clear self Hcs.
    induction IH as [|c cs' Hc _ IHcs]; intros self; simpl.
    - rewrite app_nil_r. by destruct self.
    - rewrite Hc, IHcs; simpl.
      + by rewrite emitted_app, app_assoc.
      + rewrite forallb_app, Hanc. simpl. by rewrite He. }
  rewrite process_element_eq, nodes_eq, Hcs.
  assert (emit ((ancestors, e) :: flat_map (λ c, nodes (ancestors ++ [e]) c) cs)
          = (if is_placemark e then [data e (walked_path ancestors)] else [])
            ++ emit (flat_map (λ c, nodes (ancestors ++ [e]) c) cs)) as Hhead.
  { unfold emitted. simpl. unfold reached_placemark at 1. simpl.
    rewrite Hanc, andb_true_r. by destruct (is_placemark e). }
  rewrite Hhead.
  destruct (is_folder e) eqn:Hf.
  - pose proof (folder_not_placemark e Hf) as Hp. rewrite Hp.
    apply Hchildren; [|done]. by rewrite walked_path_snoc, Hf.
  - destruct (is_placemark e) eqn:Hp.
    + pose proof (emitted_below_placemark ancestors e Hp) as Hb.
      rewrite Hcs in Hb. by rewrite Hb, app_nil_r.
    + apply Hchildren; [|done]. by rewrite walked_path_snoc, Hf.
Qed.

(** The extractor returns the records of the reached Placemarks of the
    document, and nothing for a file that cannot be read. *)
Lemma extract_emitted (self : KMLParser) (kml_file : parse_result) :
  (extract_placemarks_from_kml float charref_sub self kml_file source_mid).1.2
  = match kml_file with
    | Tree root => emit (nodes [] root)
    | _ => []
    end.
Proof.
  destruct kml_file; [done | done |]. unfold extract_placemarks_from_kml.
  change (Some []) with (walked_path []).
  by rewrite (process_element_emitted root [] (mkKMLParser []) eq_refl).
Qed.

Lemma folder_placemark_data (element : Element) (folder_path : option str) :
  folder (data element folder_path)
  = if truthy folder_path then fmt folder_path else ROOT_LABEL.
Proof.
  unfold placemark_data.
  by destruct (match find_descendant _ element with
               | Some c => parse_coordinates float (text c)
               | None => (None, None)
               end).
Qed.

Lemma coordinates_placemark_data (element : Element)
    (folder_path : option str) :
  (latitude (data element folder_path), longitude (data element folder_path))
  = match find_descendant (kml (lit "coordinates")) element with
    | Some coord_elem => parse_coordinates float (text coord_elem)
    | None => (None, None)
    end.
Proof.
  unfold placemark_data.
  by destruct (match find_descendant _ element with
               | Some c => parse_coordinates float (text c)
               | None => (None, None)
               end).
Qed.

Lemma walked_path_named (ancestors : list Element) (path : str) :
  forallb named_folder ancestors = true →
  fold_left
    (λ path a, if is_folder a then current_folder_path path a else path)
    ancestors (Some path)
  = Some (fold_left
            (λ path a, if is_folder a
                       then child_path path (declared_name a) else path)
            ancestors path).
Proof.
  revert path. induction ancestors as [|a l IH]; intros path H; [done|].
  simpl in H. apply andb_true_iff in H as [Ha Hl]. simpl.
  destruct (is_folder a) eqn:Hf; [|by apply IH].
  rewrite <- IH by done. f_equal.
  unfold named_folder in Ha. rewrite Hf in Ha. simpl in Ha.
  unfold current_folder_path, declared_name, text_or_empty.
  destruct (find_child (kml (lit "name")) a) as [n|].
  - apply bool_decide_eq_true in Ha as [s Hs]. rewrite Hs. simpl.
    by destruct path.
  - simpl. by destruct path.
Qed.

(** Where every container above a leaf has a name with text, or no name
    element, the [folder] of the record is the path of the container names,
    and the root label when that path is empty. *)
Lemma folder_of_named_ancestors (element : Element)
    (ancestors : list Element) :
  forallb named_folder ancestors = true →
  folder (data element (walked_path ancestors)) = leaf_folder ancestors.
Proof.
  intros H. rewrite folder_placemark_data. unfold walked_path, leaf_folder.
  rewrite walked_path_named by done. unfold container_path.
  by destruct (fold_left _ ancestors []).
Qed.

Lemma parse_coordinates_shape (coord_text : option str) :
  parse_coordinates float coord_text = (None, None)
  ∨ ∃ t lng lat rest la lo,
      coord_text = Some t
      ∧ split (ch ",") (strip t) = lng :: lat :: rest
      ∧ float lat = Some la ∧ float lng = Some lo
      ∧ parse_coordinates float coord_text = (Some la, Some lo).
Proof.
  destruct coord_text as [[|c r]|]; [by left | | by left].
  unfold parse_coordinates.
  destruct (strip (c :: r)) as [|s0 s] eqn:Est; [by left|].
  destruct (split (ch ",") (s0 :: s)) as [|lng [|lat rest]] eqn:Es;
    [by left | by left |].
  destruct (float lat) as [la|] eqn:Ela; [|by left].
  destruct (float lng) as [lo|] eqn:Elo; [|by left].
  right. exists (c :: r), lng, lat, rest, la, lo. by rewrite Est.
Qed.

(** C3 (as amended).  In every record the extractor returns, latitude and
    longitude are both null, or they are both floats: what [float] gives for
    the second and for the first component of the text of the first
    [coordinates] element below the Placemark of the record, as it is.  No
    range is checked and no value is clamped. *)
Theorem extract_coordinates_both_or_neither (self : KMLParser)
    (kml_file : parse_result) :
  Forall2
    (λ n p,
       (latitude p = None ∧ longitude p = None)
       ∨ ∃ coord_elem t lng lat rest la lo,
           find_descendant (kml (lit "coordinates")) n.2 = Some coord_elem
           ∧ text coord_elem = Some t
           ∧ split (ch ",") (strip t) = lng :: lat :: rest
           ∧ float lat = Some la ∧ float lng = Some lo
           ∧ latitude p = Some la ∧ longitude p = Some lo)
    match kml_file with
    | Tree root => reached_placemarks root
    | _ => []
    end
    (extract_placemarks_from_kml float charref_sub self kml_file
       source_mid).1.2.
Proof.
  rewrite extract_emitted. destruct kml_file; [constructor | constructor |].
  unfold emitted. fold (reached_placemarks root).
  induction (reached_placemarks root) as [|n ns IH]; simpl; constructor;
    [|done].
  pose proof (coordinates_placemark_data n.2 (walked_path n.1)) as Hc.
  destruct (find_descendant (kml (lit "coordinates")) n.2) as [ce|].
  - destruct (parse_coordinates_shape (text ce))
      as [E | (t & lng & lat & rest & la & lo & Ht & Hs & Hla & Hlo & E)];
      rewrite E in Hc; injection Hc as Hlat Hlng.
    + by left.
    + right. by exists ce, t, lng, lat, rest, la, lo.
  - injection Hc as Hlat Hlng. by left.
Qed.

(** C10.  A call of the extractor starts from an empty record list, whatever
    the parser holds from earlier calls: the parser it leaves, the list it
    returns and what it prints depend on the file and on the source
    identifier only.  (The walk itself appends to the list it is given, so
    the reset is what makes the call independent.) *)
Theorem extract_independent_of_parser_state (self1 self2 : KMLParser)
    (kml_file : parse_result) :
  extract_placemarks_from_kml float charref_sub self1 kml_file source_mid
  = extract_placemarks_from_kml float charref_sub self2 kml_file source_mid
  ∧ ∀ root,
      placemarks (process root (Some []) self1)
      = placemarks self1
        ++ (extract_placemarks_from_kml float charref_sub self2 (Tree root)
              source_mid).1.2.
Proof.
  split; [done|]. intros root. rewrite extract_emitted.
  change (Some []) with (walked_path []).
  by rewrite (process_element_emitted root [] self1 eq_refl).
Qed.

End Walk.

(** C3 as stated fails: coordinates outside the geographic ranges are kept
    as they are. *)
Lemma out_of_range_coordinates_kept :
  map (λ p, (latitude p, longitude p))
    (extract_ascii (Tree doc_out_of_range) (lit "m"))
  = [(Some (float64_of_Z 500), Some (float64_of_Z 500))]
  ∧ between (-90) 90 (float64_of_Z 500) = false
  ∧ between (-180) 180 (float64_of_Z 500) = false.
Proof. by vm_compute. Qed.

(** C5 on the failing input: below the folder [A], a folder whose name
    element has no text gives the path [A/None], where the path of the
    container names is [A/]. *)
Lemma unnamed_folder_renders_None :
  map folder (extract_ascii (Tree doc_unnamed_folder) (lit "m"))
  = [lit "A/None"]
  ∧ map (λ n, leaf_folder n.1) (reached_placemarks doc_unnamed_folder)
    = [lit "A/"].
Proof. by vm_compute. Qed.

(** Apart from such folders C5 holds: the folder of every record is the path
    of the container names above its leaf. *)
Lemma extract_folders_named {F : Type} (float : str → option F)
    (charref_sub : str → str) (source_mid : str) (self : KMLParser)
    (root : Element) :
  Forall (λ n, forallb named_folder n.1 = true) (reached_placemarks root) →
  map folder
    (extract_placemarks_from_kml float charref_sub self (Tree root)
       source_mid).1.2
  = map (λ n, leaf_folder n.1) (reached_placemarks root).
Proof.
  intros H.
  rewrite extract_emitted. unfold emitted. fold (reached_placemarks root).
  rewrite map_map. apply map_ext_in. intros n Hn.
  apply folder_of_named_ancestors.
  rewrite Forall_forall in H. by apply H, list_elem_of_In.
Qed.

Lemma extract_folders_doc_sample :
  map folder (extract_ascii (Tree doc_sample) (lit "m"))
  = [lit "A"; lit "A/B"; lit "C"].
Proof.
  unfold extract_ascii. rewrite extract_folders_named; [reflexivity|].
  apply Forall_forall. intros n Hn. apply list_elem_of_In in Hn.
  assert (forallb (λ n, forallb named_folder n.1)
            (reached_placemarks doc_sample) = true) as H by (by vm_compute).
  rewrite forallb_forall in H. by apply H.
Defined.

(** ** The walk with its exceptions *)

Section WalkExceptions.

Context {F : Type}.
Variable float : str → option F.
Variable charref_sub : str → str.
Variable charref_error : str → bool.
Variable recursion_limit : nat.
Variable library_frames : Element → nat.
Variable source_mid : str.

Local Abbreviation data := (placemark_data float charref_sub source_mid).
Local Abbreviation data_exc :=
  (placemark_data_exc float charref_sub charref_error source_mid).
Local Abbreviation process_exc :=
  (process_element_exc float charref_sub charref_error recursion_limit
     library_frames).
Local Abbreviation extract_exc :=
  (extract_placemarks_from_kml_exc float charref_sub charref_error
     recursion_limit library_frames).
Local Abbreviation emit := (emitted float charref_sub source_mid).
Local Abbreviation walk :=
  (walked_nodes charref_sub charref_error recursion_limit library_frames).
Local Abbreviation exception_at :=
  (node_exception charref_sub charref_error recursion_limit library_frames).
Local Abbreviation raises := (description_raises charref_sub charref_error).
Local Abbreviation outside_placemarks :=
  (forallb (λ a : Element, negb (is_placemark a))).

Lemma placemark_data_exc_cases (element : Element)
    (folder_path : option str) :
  data_exc element folder_path
  = if raises element then Raised ValueError
    else Returned (data element folder_path).
Proof.
  unfold placemark_data_exc, description_raises, placemark_data.
  destruct (clean_html_tags_exc_cases charref_sub charref_error
              (text_or_empty (find_child (kml (lit "description")) element)))
    as [-> | [-> _]]; [|done].
  by destruct (match find_descendant _ element with
               | Some c => parse_coordinates float (text c)
               | None => (None, None)
               end).
Qed.

Lemma process_element_exc_eq (depth : nat) (element : Element)
    (folder_path : option str) (self : KMLParser) :
  process_exc depth source_mid element folder_path self =
  if overflows recursion_limit library_frames depth element
  then (self, Some RecursionError)
  else if is_folder element then
    fold_left
      (λ acc child,
         match acc with
         | (self, None) =>
             process_exc (S depth) source_mid child
               (current_folder_path folder_path element) self
         | (_, Some _) => acc
         end)
      (children element) (self, None)
  else if is_placemark element then
    match data_exc element folder_path with
    | Returned data => (mkKMLParser (placemarks self ++ [data]), None)
    | Raised e => (self, Some e)
    end
  else
    fold_left
      (λ acc child,
         match acc with
         | (self, None) =>
             process_exc (S depth) source_mid child folder_path self
         | (_, Some _) => acc
         end)
      (children element) (self, None).
Proof. by destruct element. Qed.

(** The parser and the exception after the walk along [ns]. *)
Local Abbreviation after self ns :=
  (mkKMLParser (placemarks self ++ emit (walk ns).1), (walk ns).2).

Lemma walked_nodes_app (ns1 ns2 : list (list Element * Element)) :
  walk (ns1 ++ ns2)
  = match (walk ns1).2 with
    | None => ((walk ns1).1 ++ (walk ns2).1, (walk ns2).2)
    | Some e => ((walk ns1).1, Some e)
    end.
Proof.
  induction ns1 as [|n ns1 IH]; simpl; [by destruct (walk ns2)|].
  destruct (outside_placemarks n.1); [|done].
  destruct (exception_at n); [done|].
  rewrite IH. destruct (walk ns1) as [before [e|]]; simpl; [done|].
  by destruct (walk ns2).
Qed.

Lemma walked_nodes_inside (ns : list (list Element * Element)) :
  (∀ n, In n ns → outside_placemarks n.1 = false) → walk ns = ([], None).
Proof.
  induction ns as [|n ns IH]; intros H; simpl; [done|].
  rewrite (H n) by (by left). apply IH. intros m Hm. apply H. by right.
Qed.

Lemma walked_nodes_below_placemark (ancestors : list Element) (e : Element) :
  is_placemark e = true →
  walk (flat_map (λ c, nodes (ancestors ++ [e]) c) (children e)) = ([], None).
Proof.
  intros He. apply walked_nodes_inside.
  intros n Hn. apply in_flat_map in Hn as (c & _ & Hn).
  apply nodes_ancestors in Hn as [below ->].
  rewrite <- app_assoc, forallb_app. simpl. rewrite He. simpl.
  by rewrite andb_false_r.
Qed.

Lemma emitted_cons (ancestors : list Element) (e : Element)
    (ns : list (list Element * Element)) :
  outside_placemarks ancestors = true →
  emit ((ancestors, e) :: ns)
  = (if is_placemark e then [data e (walked_path ancestors)] else [])
    ++ emit ns.
Proof.
  intros Hanc. unfold emitted. simpl. unfold reached_placemark at 1. simpl.
  rewrite Hanc, andb_true_r. by destruct (is_placemark e).
Qed.

(** The walk below [ancestors] appends the records of the reached Placemarks
    that come before the first exception, and ends with that exception. *)
Lemma process_element_exc_walked (e : Element) :
  ∀ (ancestors : list Element) (self : KMLParser),
    outside_placemarks ancestors = true →
    process_exc (S (length ancestors)) source_mid e (walked_path ancestors)
      self
    = after self (nodes ancestors e).
Proof.
  induction e as [t x cs IH] using Element_ind_nested.
  intros ancestors self Hanc.
  assert (children (Elem t x cs) = cs) as Hcs by done.
  revert Hcs. generalize (Elem t x cs) as e. intros e Hcs.
  assert (∀ path, path = walked_path (ancestors ++ [e]) →
            is_placemark e = false →
            ∀ self,
              fold_left
                (λ acc child,
                   match acc with
                   | (self, None) =>
                       process_exc (S (S (length ancestors))) source_mid
                         child path self
                   | (_, Some _) => acc
                   end) cs (self, None)
              = after self (flat_map (λ c, nodes (ancestors ++ [e]) c) cs))
    as Hchildren.
  { intros path -> He. clear self Hcs.
    induction IH as [|c cs' Hc _ IHcs]; intros self; simpl.
    - rewrite app_nil_r. by destruct self.
    - replace (S (S (length ancestors))) with (S (length (ancestors ++ [e])))
        by (rewrite length_app; simpl; lia).
      rewrite Hc by (rewrite forallb_app, Hanc; simpl; by rewrite He).
      replace (S (length (ancestors ++ [e]))) with (S (S (length ancestors)))
        by (rewrite length_app; simpl; lia).
      rewrite walked_nodes_app.
      destruct (walk (nodes (ancestors ++ [e]) c)) as [before [exc|]]; simpl.
      + clear IHcs. induction cs' as [|c' cs'' IHc]; simpl; [done|].
        apply IHc.
      + rewrite IHcs. simpl. by rewrite emitted_app, app_assoc. }
  rewrite process_element_exc_eq, nodes_eq, Hcs. simpl walked_nodes.
  rewrite Hanc. unfold node_exception. simpl fst. simpl snd.
  destruct (overflows recursion_limit library_frames (S (length ancestors)) e).
  { simpl. rewrite app_nil_r. by destruct self. }
  destruct (is_folder e) eqn:Hf.
  - pose proof (folder_not_placemark e Hf) as Hp. rewrite Hp. simpl.
    rewrite Hchildren; [|by rewrite walked_path_snoc, Hf | done].
    destruct (walk _) as [before exc]. simpl.
    by rewrite (emitted_cons ancestors e before Hanc), Hp.
  - destruct (is_placemark e) eqn:Hp; simpl.
    + rewrite placemark_data_exc_cases.
      destruct (raises e).
      * simpl. rewrite app_nil_r. by destruct self.
      * pose proof (walked_nodes_below_placemark ancestors e Hp) as Hb.
        rewrite Hcs in Hb. rewrite Hb. simpl.
        by rewrite (emitted_cons ancestors e [] Hanc), Hp.
    + rewrite Hchildren; [|by rewrite walked_path_snoc, Hf | done].
      destruct (walk _) as [before exc]. simpl.
      by rewrite (emitted_cons ancestors e before Hanc), Hp.
Qed.

Lemma extract_exc_walked (self : KMLParser) (root : Element) :
  extract_exc self (ParseGives (Tree root)) source_mid
  = (mkKMLParser (emit (walk (nodes [] root)).1),
     match (walk (nodes [] root)).2 with
     | None => Returned (emit (walk (nodes [] root)).1)
     | Some e => Raised e
     end, []).
Proof.
  unfold extract_placemarks_from_kml_exc.
  change (process_exc 1 source_mid root (Some []) (mkKMLParser []))
    with (process_exc (S (length (@nil Element))) source_mid root
            (walked_path []) (mkKMLParser [])).
  rewrite (process_element_exc_walked root [] (mkKMLParser []) eq_refl).
  simpl. by destruct (walk (nodes [] root)).2.
Qed.

Lemma node_exception_None (n : list Element * Element) :
  exception_at n = None
  ↔ fits recursion_limit library_frames n
    ∧ (is_placemark n.2 = true → decodable charref_sub charref_error n).
Proof.
  unfold node_exception, overflows, fits, decodable.
  destruct (Nat.ltb_spec recursion_limit (S (length n.1) + library_frames n.2)).
  - split; [done|]. intros [? _]. lia.
  - split.
    + intros Hn. split; [lia|]. intros Hp. rewrite Hp in Hn. simpl in Hn.
      by destruct (raises n.2).
    + intros [_ Hd]. destruct (is_placemark n.2); simpl; [|done].
      by rewrite Hd.
Qed.

Lemma node_exception_Some (n : list Element * Element) (e : exception) :
  exception_at n = Some e →
  e = RecursionError ∧ ¬ fits recursion_limit library_frames n
  ∨ e = ValueError ∧ is_placemark n.2 = true
    ∧ ¬ decodable charref_sub charref_error n.
Proof.
  unfold node_exception, overflows, fits, decodable.
  destruct (Nat.ltb_spec recursion_limit (S (length n.1) + library_frames n.2)).
  - intros [= <-]. left. split; [done | lia].
  - destruct (is_placemark n.2), (raises n.2); simpl; try done.
    intros [= <-]. right. by repeat split.
Qed.

(** Without an exception the walk passes all the nodes outside Placemarks;
    an exception is that of one of them. *)
Lemma walked_nodes_cases (ns : list (list Element * Element)) :
  match (walk ns).2 with
  | None =>
      (walk ns).1 = List.filter (λ n, outside_placemarks n.1) ns
      ∧ Forall (λ n, exception_at n = None)
          (List.filter (λ n, outside_placemarks n.1) ns)
  | Some e =>
      ∃ n, In n (List.filter (λ n, outside_placemarks n.1) ns)
           ∧ exception_at n = Some e
  end.
Proof.
  induction ns as [|n ns IH]; simpl; [by split|].
  destruct (outside_placemarks n.1); [|done].
  destruct (exception_at n) as [e|] eqn:En; simpl.
  { exists n. split; [by left | done]. }
  destruct (walk ns) as [before [e|]]; simpl in *.
  - destruct IH as (m & Hm & He). exists m. split; [by right | done].
  - destruct IH as [-> Hall]. split; [done | by constructor].
Qed.

Lemma emitted_outside (ns : list (list Element * Element)) :
  emit (List.filter (λ n, outside_placemarks n.1) ns) = emit ns.
Proof.
  unfold emitted. f_equal.
  induction ns as [|n ns IH]; simpl; [done|].
  unfold reached_placemark at 2.
  destruct (outside_placemarks n.1) eqn:E; simpl.
  - unfold reached_placemark at 1. rewrite E. by rewrite IH.
  - by rewrite andb_false_r.
Qed.

Lemma reached_among_visited (root : Element) (n : list Element * Element) :
  In n (reached_placemarks root)
  ↔ In n (visited root) ∧ is_placemark n.2 = true.
Proof.
  unfold reached_placemarks, visited, reached_placemark.
  rewrite !filter_In, andb_true_iff.
  split; [intros (? & ? & ?) | intros ((? & ?) & ?)]; by repeat split.
Qed.

Lemma no_exception_iff (root : Element) :
  Forall (λ n, exception_at n = None) (visited root)
  ↔ Forall (fits recursion_limit library_frames) (visited root)
    ∧ Forall (decodable charref_sub charref_error) (reached_placemarks root).
Proof.
  rewrite !Forall_forall. setoid_rewrite list_elem_of_In. split.
  - intros H. split.
    + intros n Hn. by apply node_exception_None, H.
    + intros n Hn. apply reached_among_visited in Hn as [Hv Hp].
      by apply (node_exception_None n); [apply H|].
  - intros [Hf Hd] n Hn. apply node_exception_None. split; [by apply Hf|].
    intros Hp. apply Hd. by apply reached_among_visited.
Qed.

(** C4 (as amended).  As long as the walk stays within the recursion limit
    of the interpreter (and [clean_html_tags] does not raise on a
    description), the records returned for a document are, in document order,
    one for each Placemark element that does not lie inside another Placemark
    element; containers and other elements give none, and the walk does not
    go below a Placemark.  When no Placemark lies inside another, the number
    of records is then the number of Placemark elements of the document.
    Otherwise the walk ends with [RecursionError] (or [ValueError]), which
    [extract_placemarks_from_kml] does not catch, and no record is returned;
    this is so whenever the walk reaches a node with as many elements above
    it as the interpreter allows nested calls. *)
Theorem extract_one_record_per_reached_placemark (self : KMLParser)
    (root : Element) :
  let result := (extract_exc self (ParseGives (Tree root)) source_mid).1.2 in
  let records :=
    map (λ n, data n.2 (walked_path n.1)) (reached_placemarks root) in
  (Forall (fits recursion_limit library_frames) (visited root) →
   Forall (decodable charref_sub charref_error) (reached_placemarks root) →
   result = Returned records
   ∧ length records = length (reached_placemarks root)
   ∧ ((∀ n, In n (nodes [] root) → is_placemark n.2 = true →
             reached_placemark n = true) →
      length records = count_placemark_nodes root))
  ∧ (∀ placemarks,
       result = Returned placemarks →
       placemarks = records
       ∧ Forall (fits recursion_limit library_frames) (visited root)
       ∧ Forall (decodable charref_sub charref_error)
           (reached_placemarks root))
  ∧ (∀ e,
       result = Raised e →
       e = RecursionError
       ∧ Exists (λ n, ¬ fits recursion_limit library_frames n) (visited root)
       ∨ e = ValueError
         ∧ Exists (λ n, ¬ decodable charref_sub charref_error n)
             (reached_placemarks root))
  ∧ (∀ n, n ∈ visited root → recursion_limit ≤ length n.1 →
          ∃ e, result = Raised e).
Proof.
  intros result records. unfold result. rewrite extract_exc_walked.
  cbn [fst snd].
  pose proof (walked_nodes_cases (nodes [] root)) as Hw.
  fold (visited root) in Hw.
  assert (emit (visited root) = records) as Hrec.
  { unfold visited. by rewrite emitted_outside. }
  split; [|split; [|split]].
  - intros Hf Hd.
    assert (Forall (λ n, exception_at n = None) (visited root)) as Hnone
      by (by apply no_exception_iff).
    destruct (walk (nodes [] root)) as [before [e|]]; simpl in *.
    { destruct Hw as (n & Hn & He). rewrite Forall_forall in Hnone.
      apply list_elem_of_In in Hn. rewrite (Hnone n Hn) in He. done. }
    destruct Hw as [-> _]. rewrite Hrec.
    split; [done|]. unfold records. rewrite length_map. split; [done|].
    intros H. unfold reached_placemarks, count_placemark_nodes.
    f_equal. apply List.filter_ext_in. intros n Hn.
    destruct (is_placemark n.2) eqn:E; [by apply H|].
    unfold reached_placemark. by rewrite E.
  - intros ps Hps.
    destruct (walk (nodes [] root)) as [before [e|]]; simpl in *; [done|].
    destruct Hw as [-> Hnone]. injection Hps as <-.
    split; [done|]. by apply no_exception_iff.
  - intros e He.
    destruct (walk (nodes [] root)) as [before [e'|]]; simpl in *; [|done].
    injection He as ->. destruct Hw as (n & Hn & He).
    apply node_exception_Some in He as [[-> Hfit] | (-> & Hp & Hdec)].
    + left. split; [done|]. apply Exists_exists. exists n.
      split; [by apply list_elem_of_In | done].
    + right. split; [done|]. apply Exists_exists. exists n.
      split; [|done]. by apply list_elem_of_In, reached_among_visited.
  - intros n Hn Hdeep.
    destruct (walk (nodes [] root)) as [before [e|]]; simpl in *;
      [by exists e|].
    destruct Hw as [_ Hnone]. rewrite Forall_forall in Hnone.
    apply Hnone, node_exception_None in Hn as [Hfit _].
    unfold fits in Hfit. lia.
Qed.

End WalkExceptions.

Lemma extract_doc_sample_count :
  extract_ascii_exc (ParseGives (Tree doc_sample)) (lit "m")
  = Returned (extract_ascii (Tree doc_sample) (lit "m"))
  ∧ length (extract_ascii (Tree doc_sample) (lit "m"))
    = count_placemark_nodes doc_sample
  ∧ count_placemark_nodes doc_sample = 3.
Proof.
  destruct (extract_one_record_per_reached_placemark float_ascii no_charref
              long_decimal_reference DEFAULT_RECURSION_LIMIT no_library_frames
              (lit "m") (mkKMLParser []) doc_sample) as (H & _).
  destruct H as (Hres & _ & Hcount).
  - apply Forall_forall. intros n Hn. apply list_elem_of_In in Hn.
    assert (forallb (λ n : list Element * Element,
                       S (length n.1) + no_library_frames n.2
                       <=? DEFAULT_RECURSION_LIMIT)
              (visited doc_sample) = true) as H by (by vm_compute).
    rewrite forallb_forall in H. by apply Nat.leb_le, H.
  - apply Forall_forall. intros n Hn. apply list_elem_of_In in Hn.
    assert (forallb (λ n : list Element * Element,
                       negb (description_raises no_charref
                               long_decimal_reference n.2))
              (reached_placemarks doc_sample) = true) as H by (by vm_compute).
    rewrite forallb_forall in H. by apply negb_true_iff, H.
  - split; [exact Hres|]. split; [|reflexivity].
    transitivity
      (length
         (map (λ n : list Element * Element,
                 placemark_data float_ascii no_charref (lit "m") n.2
                   (walked_path n.1))
            (reached_placemarks doc_sample))); [reflexivity|].
    apply Hcount. intros n Hn Hp.
    assert (forallb (λ n, implb (is_placemark n.2) (reached_placemark n))
              (nodes [] doc_sample) = true) as H by (by vm_compute).
    rewrite forallb_forall in H. specialize (H n Hn). by rewrite Hp in H.
Defined.

(** C4 as stated fails.  A Placemark element inside a Placemark element is
    not reached, so the document has two Placemark elements and one record;
    a Placemark below more nested elements than the interpreter allows
    nested calls gives [RecursionError] and no record; and so does, with
    [ValueError], a Placemark on whose description [clean_html_tags]
    raises. *)
Lemma nested_placemark_not_emitted :
  count_placemark_nodes doc_nested_placemark = 2
  ∧ (∃ p, extract_ascii_exc (ParseGives (Tree doc_nested_placemark)) (lit "m")
          = Returned [p])
  ∧ count_placemark_nodes doc_deep = 1
  ∧ extract_ascii_exc (ParseGives (Tree doc_deep)) (lit "m")
    = Raised RecursionError
  ∧ count_placemark_nodes doc_long_reference = 1
  ∧ extract_ascii_exc (ParseGives (Tree doc_long_reference)) (lit "m")
    = Raised ValueError.
Proof.
  split; [by vm_compute|]. split; [vm_compute; by eexists|].
  split; [by vm_compute|]. split; [by vm_compute|].
  split; by vm_compute.
Qed.

(** ** The merge *)

Section Merge.

#[local] Set Warnings "-clear-no-such-hyp".

Context {F : Type}.
Variable float : str → option F.
Variable charref_sub : str → str.

Local Abbreviation extract := (extract_placemarks_from_kml float charref_sub).
Local Abbreviation records := (source_records float charref_sub).
Local Abbreviation step := (merge_source float charref_sub).
Local Abbreviation loop := (merge_loop float charref_sub).
Local Abbreviation rows := (merged_rows float charref_sub).
Local Abbreviation fresh keys :=
  (λ p : Placemark F, folder_name_key p ∉ (keys : gset key)).
Local Abbreviation known keys :=
  (λ p : Placemark F, folder_name_key p ∈ (keys : gset key)).

Lemma index_primary_union (keys : gset key) (ps : list (Placemark F)) :
  index_primary keys ps = keys ∪ list_to_set (folder_name_key <$> ps).
Proof.
  revert keys. unfold index_primary.
  induction ps as [|p ps IH]; intros keys; simpl.
  - set_solver.
  - rewrite IH. set_solver.
Qed.

(** The loop over the records of a map that is not the first: the records
    with a key outside [primary] are appended in their order and counted as
    added, the others are counted as skipped. *)
Lemma secondary_loop (primary : gset key) (ps all : list (Placemark F))
    (added skipped : nat) :
  fold_left (merge_placemark primary) ps (all, added, skipped)
  = (all ++ filter (fresh primary) ps,
     added + length (filter (fresh primary) ps),
     skipped + length (filter (known primary) ps)).
Proof.
  revert all added skipped.
  induction ps as [|p ps IH]; intros all added skipped; simpl.
  - by rewrite app_nil_r, !Nat.add_0_r.
  - rewrite !filter_cons. destruct (decide (folder_name_key p ∈ primary)).
    + rewrite decide_False by (by intros H; apply H).
      rewrite IH. simpl. f_equal. lia.
    + rewrite decide_True by done.
      rewrite IH. simpl. rewrite <- app_assoc. simpl. do 2 f_equal. lia.
Qed.

Lemma filter_all {A} (P : A → Prop) `{!∀ x, Decision (P x)} (l : list A) :
  (∀ x, P x) → filter P l = l.
Proof.
  intros Hall. induction l as [|a l IH]; [done|].
  rewrite filter_cons_True by done. by rewrite IH.
Qed.

Lemma extract_records (self : KMLParser) (source : Source)
    (kml_file : parse_result) :
  (extract self kml_file (mid source)).1.2
  = records (source, Downloaded kml_file).
Proof. done. Qed.

Lemma merge_source_secondary (i : nat) (source : Source) (got : fetched)
    (st : merge_state) :
  i ≠ 1 →
  all_placemarks (step i source got st)
  = all_placemarks st
    ++ filter (fresh (primary_map_records st)) (records (source, got))
  ∧ primary_map_records (step i source got st) = primary_map_records st.
Proof.
  intros Hi. destruct got as [|kml_file]; simpl.
  { by rewrite app_nil_r. }
  rewrite <- (extract_records (kml_parser st)).
  unfold merge_source.
  destruct (extract (kml_parser st) kml_file (mid source))
    as [[parser ps] printed]. simpl.
  destruct ps as [|p ps]; simpl.
  { by rewrite app_nil_r. }
  apply Nat.eqb_neq in Hi. rewrite Hi.
  change (fold_left _ ps _)
    with (fold_left (merge_placemark (primary_map_records st)) (p :: ps)
            (all_placemarks st, 0, 0)).
  by rewrite secondary_loop.
Qed.

Lemma merge_source_primary (source : Source) (got : fetched)
    (st : merge_state) :
  all_placemarks (step 1 source got st)
  = all_placemarks st ++ records (source, got)
  ∧ primary_map_records (step 1 source got st)
    = primary_map_records st
      ∪ list_to_set (folder_name_key <$> records (source, got)).
Proof.
  destruct got as [|kml_file]; simpl.
  { rewrite app_nil_r. split; [done | set_solver]. }
  rewrite <- (extract_records (kml_parser st)).
  unfold merge_source.
  destruct (extract (kml_parser st) kml_file (mid source))
    as [[parser ps] printed]. simpl.
  destruct ps as [|p ps]; simpl.
  { rewrite app_nil_r. split; [done | set_solver]. }
  split; [done|].
  change (index_primary (primary_map_records st) (p :: ps)
          = primary_map_records st
            ∪ list_to_set (folder_name_key <$> p :: ps)).
  apply index_primary_union.
Qed.

Lemma merge_loop_secondary (map_sources : list (Source * fetched)) :
  ∀ (i : nat) (st : merge_state),
    1 < i →
    all_placemarks (loop i map_sources st)
    = all_placemarks st
      ++ flat_map (λ sg, filter (fresh (primary_map_records st)) (records sg))
           map_sources
    ∧ primary_map_records (loop i map_sources st) = primary_map_records st.
Proof.
  induction map_sources as [|[source got] rest IH]; intros i st Hi; simpl.
  - by rewrite app_nil_r.
  - destruct (merge_source_secondary i source got st ltac:(lia)) as [Ha Hk].
    destruct (IH (S i) (step i source got st) ltac:(lia)) as [-> ->].
    by rewrite Ha, Hk, <- app_assoc.
Qed.

(** The rows and the key set at the end of the loop, in closed form. *)
Lemma merge_loop_closed_form (map_sources : list (Source * fetched)) :
  all_placemarks (loop 1 map_sources merge_init) = rows map_sources
  ∧ primary_map_records (loop 1 map_sources merge_init)
    = primary_keys float charref_sub map_sources.
Proof.
  destruct map_sources as [|[source got] rest]; [done|]. simpl.
  destruct (merge_source_primary source got merge_init) as [Ha Hk].
  destruct (merge_loop_secondary rest 2 (step 1 source got merge_init)
              ltac:(lia)) as [-> ->].
  rewrite Ha, Hk. simpl. by rewrite (left_id_L ∅ (∪)).
Qed.

(** C1 (as amended).  For a map that is not the first, the records are
    taken in their order: a record whose identity key is in
    [primary_map_records] is discarded and counted as skipped, any other is
    appended to the merged output and counted as added.  The key set is left
    as it was: the key of an appended record is not added to it. *)
Theorem merge_secondary_source (i : nat) (source : Source)
    (kml_file : parse_result) (st : merge_state) :
  i ≠ 1 →
  let found := (extract (kml_parser st) kml_file (mid source)).1.2 in
  let st' := step i source (Downloaded kml_file) st in
  all_placemarks st'
  = all_placemarks st ++ filter (fresh (primary_map_records st)) found
  ∧ primary_map_records st' = primary_map_records st
  ∧ (found ≠ [] →
     stdout st'
     = stdout st
       ++ [MsgSecondary i (length found)
             (length (filter (fresh (primary_map_records st)) found))
             (length (filter (known (primary_map_records st)) found))]).
Proof.
  intros Hi found st'.
  destruct (merge_source_secondary i source (Downloaded kml_file) st Hi)
    as [Ha Hk].
  split; [done|]. split; [done|].
  intros Hne. unfold st', found in *.
  destruct kml_file as [| |root]; [done | done |].
  unfold merge_source, extract_placemarks_from_kml in *. simpl in *.
  destruct (placemarks (process_element float charref_sub (mid source) root
                          (Some []) (mkKMLParser []))) as [|p ps]; [done|].
  apply Nat.eqb_neq in Hi. rewrite Hi.
  change (fold_left _ ps _)
    with (fold_left (merge_placemark (primary_map_records st)) (p :: ps)
            (all_placemarks st, 0, 0)).
  by rewrite secondary_loop.
Qed.

(** C2.  Two records of two different maps, neither of them the first, that
    share an identity key which no record of the first map has, are both in
    the merged output, in the order of their maps. *)
Theorem merge_keeps_secondary_duplicates
    (map_sources : list (Source * fetched)) (i j : nat)
    (sgi sgj : Source * fetched) (r1 r2 : Placemark F) :
  0 < i → i < j →
  map_sources !! i = Some sgi → map_sources !! j = Some sgj →
  r1 ∈ records sgi → r2 ∈ records sgj →
  folder_name_key r1 = folder_name_key r2 →
  (∀ first p, map_sources !! 0 = Some first → p ∈ records first →
              folder_name_key p ≠ folder_name_key r1) →
  ∃ l1 l2 l3,
    all_placemarks (loop 1 map_sources merge_init)
    = l1 ++ r1 :: l2 ++ r2 :: l3.
Proof.
  intros Hi Hij Hsi Hsj Hr1 Hr2 Hkey Hprimary.
  destruct (merge_loop_closed_form map_sources) as [-> _].
  destruct map_sources as [|first others]; [done|].
  destruct i as [|i]; [lia|]. destruct j as [|j]; [lia|].
  simpl in Hsi, Hsj. unfold merged_rows.
  set (keep := λ sg : Source * fetched,
         filter (fresh (primary_keys float charref_sub (first :: others)))
           (records sg)).
  assert (folder_name_key r1
          ∉ primary_keys float charref_sub (first :: others)) as Hfresh.
  { simpl. intros Hin. apply elem_of_list_to_set, list_elem_of_fmap in Hin
      as (p & Hp & Hin). by apply (Hprimary first p). }
  assert (r1 ∈ keep sgi) as Hk1 by (by apply list_elem_of_filter).
  assert (r2 ∈ keep sgj) as Hk2.
  { apply list_elem_of_filter. split; [|done]. by rewrite <- Hkey. }
  apply list_elem_of_split in Hk1 as (a1 & b1 & Hk1).
  apply list_elem_of_split in Hk2 as (a2 & b2 & Hk2).
  pose proof (take_drop_middle _ _ _ Hsi) as Ho.
  assert (drop (S i) others !! (j - S i) = Some sgj) as Hsj'.
  { rewrite lookup_drop. rewrite <- Hsj. f_equal. lia. }
  pose proof (take_drop_middle _ _ _ Hsj') as Ho'.
  rewrite <- Ho, <- Ho'.
  rewrite flat_map_app. simpl. rewrite flat_map_app. simpl.
  fold (keep sgi). fold (keep sgj). rewrite Hk1, Hk2.
  exists (records first ++ flat_map keep (take i others) ++ a1).
  exists (b1 ++ flat_map keep (take (j - S i) (drop (S i) others)) ++ a2).
  exists (b2 ++ flat_map keep (drop (S (j - S i)) (drop (S i) others))).
  repeat first [rewrite <- app_assoc | rewrite <- app_comm_cons]. done.
Qed.

End Merge.

Lemma merge_secondary_source_witness :
  let st :=
    merge_source float_ascii no_charref 1 (mkSource (lit "m1") None)
      (Downloaded (Tree doc_primary)) merge_init in
  let st' :=
    merge_source float_ascii no_charref 2 (mkSource (lit "m2") None)
      (Downloaded (Tree doc_second)) st in
  2 ≠ 1
  ∧ map (λ p, (folder p, name p, source p)) (all_placemarks st')
    = [ (lit "A/B", Some (lit "X"), lit "m1");
        (lit "A/B", Some (lit "Y"), lit "m1");
        (lit "C", Some (lit "Z"), lit "m2") ]
  ∧ primary_map_records st' = primary_map_records st.
Proof.
  intros st st'.
  destruct (merge_secondary_source float_ascii no_charref 2
              (mkSource (lit "m2") None) (Tree doc_second) st ltac:(lia))
    as (Ha & Hk & _).
  split; [lia|]. split; [|exact Hk].
  unfold st'. rewrite Ha. by vm_compute.
Defined.

(** C1 as stated fails: the record [Z] of the second map is appended and its
    key is not in the key set afterwards, so the [Z] of the third map is
    appended as well; with a running key set it would have been skipped. *)
Lemma secondary_key_not_added :
  let st := merge_loop float_ascii no_charref 1 three_maps merge_init in
  let show := map (λ p : Placemark float64, (folder p, name p, source p)) in
  show (all_placemarks st)
  = [ (lit "A/B", Some (lit "X"), lit "m1");
      (lit "A/B", Some (lit "Y"), lit "m1");
      (lit "C", Some (lit "Z"), lit "m2");
      (lit "C", Some (lit "Z"), lit "m3") ]
  ∧ ((lit "C", Some (lit "Z")) ∉ primary_map_records st)
  ∧ show
      ((fold_left running_merge_placemark
          (extract_ascii (Tree doc_second) (lit "m2")
           ++ extract_ascii (Tree doc_third) (lit "m3"))
          (extract_ascii (Tree doc_primary) (lit "m1"),
           primary_map_records st, 0, 0)).1.1.1)
    = [ (lit "A/B", Some (lit "X"), lit "m1");
        (lit "A/B", Some (lit "Y"), lit "m1");
        (lit "C", Some (lit "Z"), lit "m2") ].
Proof. by vm_compute. Qed.

Lemma merge_keeps_secondary_duplicates_witness :
  ∃ l1 l2 l3 r1 r2,
    (source r1, folder_name_key r1) = (lit "m2", (lit "C", Some (lit "Z")))
    ∧ (source r2, folder_name_key r2) = (lit "m3", (lit "C", Some (lit "Z")))
    ∧ all_placemarks (merge_loop float_ascii no_charref 1 three_maps merge_init)
      = l1 ++ r1 :: l2 ++ r2 :: l3.
Proof.
  set (sg1 := map_of "m1" (Downloaded (Tree doc_primary))).
  set (sg2 := map_of "m2" (Downloaded (Tree doc_second))).
  set (sg3 := map_of "m3" (Downloaded (Tree doc_third))).
  assert (∃ x r1, source_records float_ascii no_charref sg2 = [x; r1]
                  ∧ (source r1, folder_name_key r1)
                    = (lit "m2", (lit "C", Some (lit "Z"))))
    as (x & r1 & E2 & K1)
    by (vm_compute; eexists _, _; split; reflexivity).
  assert (∃ r2, source_records float_ascii no_charref sg3 = [r2]
                ∧ (source r2, folder_name_key r2)
                  = (lit "m3", (lit "C", Some (lit "Z"))))
    as (r2 & E3 & K2)
    by (vm_compute; eexists; split; reflexivity).
  assert (folder_name_key <$> source_records float_ascii no_charref sg1
          = [(lit "A/B", Some (lit "X")); (lit "A/B", Some (lit "Y"))])
    as E1 by (by vm_compute).
  apply pair_equal_spec in K1 as [S1 K1].
  apply pair_equal_spec in K2 as [S2 K2].
  destruct (merge_keeps_secondary_duplicates float_ascii no_charref
              three_maps 1 2 sg2 sg3 r1 r2) as (l1 & l2 & l3 & Hsplit).
  - lia.
  - lia.
  - reflexivity.
  - reflexivity.
  - rewrite E2. set_solver.
  - rewrite E3. set_solver.
  - by rewrite K1, K2.
  - intros first p Hfirst Hp.
    change (Some sg1 = Some first) in Hfirst. injection Hfirst as <-.
    apply (list_elem_of_fmap_2 folder_name_key) in Hp.
    rewrite E1 in Hp. rewrite K1. intros Heq. rewrite Heq in Hp.
    apply list_elem_of_In in Hp. vm_compute in Hp.
    by destruct Hp as [? | [? | []]].
  - exists l1, l2, l3, r1, r2. by rewrite S1, S2, K1, K2.
Defined.

(** The two merge examples of the specification: a run over the primary map
    alone hands over its records as they are, and a second map with one
    duplicate and one new record gives three rows. *)
Lemma merge_examples :
  download_multiple_maps_run float_ascii no_charref
    [named_map "m1" "one" (Downloaded (Tree doc_primary))]
  = RunReturned true (Some (extract_ascii (Tree doc_primary) (lit "m1")))
  ∧ download_multiple_maps_run float_ascii no_charref two_named_maps
    = RunReturned true
        (Some (extract_ascii (Tree doc_primary) (lit "m1")
               ++ drop 1 (extract_ascii (Tree doc_second) (lit "m2"))))
  ∧ download_multiple_maps_run float_ascii no_charref []
    = RunReturned false None.
Proof. by vm_compute. Qed.

(** ** The merge with its exceptions *)

Lemma head_omap_None {A B : Type} (f : A → option B) (l : list A) :
  head (omap f l) = None ↔ Forall (λ x, f x = None) l.
Proof.
  induction l as [|a l IH]; simpl; [by split|].
  destruct (f a) eqn:E; simpl.
  - split; [done|]. intros H. apply Forall_cons in H as [H _]. congruence.
  - rewrite IH. split; [by constructor|]. by intros [_ ?]%Forall_cons.
Qed.

Section MergeExceptions.

#[local] Set Warnings "-clear-no-such-hyp".

Context {F : Type}.
Variable float : str → option F.
Variable charref_sub : str → str.
Variable charref_error : str → bool.
Variable recursion_limit : nat.
Variable library_frames : Element → nat.

Local Abbreviation extract := (extract_placemarks_from_kml float charref_sub).
Local Abbreviation extract_exc :=
  (extract_placemarks_from_kml_exc float charref_sub charref_error
     recursion_limit library_frames).
Local Abbreviation step := (merge_source float charref_sub).
Local Abbreviation step_exc :=
  (merge_source_exc float charref_sub charref_error recursion_limit
     library_frames).
Local Abbreviation loop := (merge_loop float charref_sub).
Local Abbreviation loop_exc :=
  (merge_loop_exc float charref_sub charref_error recursion_limit
     library_frames).
Local Abbreviation multi_exc :=
  (download_multiple_maps_to_csv_exc float charref_sub charref_error
     recursion_limit library_frames).
Local Abbreviation rows_exc :=
  (merged_rows_exc float charref_sub charref_error recursion_limit
     library_frames).
Local Abbreviation records := (source_records float charref_sub).
Local Abbreviation records_exc :=
  (source_records_exc float charref_sub charref_error recursion_limit
     library_frames).
Local Abbreviation exception_of :=
  (source_exception float charref_sub charref_error recursion_limit
     library_frames).
Local Abbreviation walk :=
  (walked_nodes charref_sub charref_error recursion_limit library_frames).
Local Abbreviation handled :=
  (λ sg : Source * retrieved, (sg.1, as_fetched sg.2)).

(** Where the extractor returns, it returns, leaves and prints what
    [extract_placemarks_from_kml] gives. *)
Lemma extract_exc_returned (self : KMLParser) (kml_file : parse_result)
    (source_mid : str) (placemarks : list (Placemark F)) :
  (extract_exc self (ParseGives kml_file) source_mid).1.2
  = Returned placemarks →
  extract_exc self (ParseGives kml_file) source_mid
  = ((extract self kml_file source_mid).1.1, Returned placemarks,
     (extract self kml_file source_mid).2)
  ∧ (extract self kml_file source_mid).1.2 = placemarks.
Proof.
  destruct kml_file as [| |root].
  - simpl. by intros [= <-].
  - simpl. by intros [= <-].
  - rewrite extract_exc_walked. cbn [fst snd].
    pose proof (walked_nodes_cases charref_sub charref_error recursion_limit
                  library_frames (nodes [] root)) as Hw.
    destruct (walk (nodes [] root)) as [before [e|]]; simpl in *; [done|].
    destruct Hw as [-> _]. intros [= <-]. rewrite emitted_outside.
    unfold extract_placemarks_from_kml.
    change (Some []) with (walked_path []).
    by rewrite (process_element_emitted float charref_sub source_mid root []
                  (mkKMLParser []) eq_refl).
Qed.

Lemma source_outcome_eq (self : KMLParser) (source : Source)
    (kml_file : parse_outcome) :
  (extract_exc self kml_file (mid source)).1.2
  = source_outcome float charref_sub charref_error recursion_limit
      library_frames (source, File kml_file).
Proof. done. Qed.

(** A source that raises nothing is for the loop what [as_fetched] makes of
    it. *)
Lemma source_records_exc_handled (sg : Source * retrieved) :
  exception_of sg = None → records_exc sg = records (handled sg).
Proof.
  destruct sg as [source [|[kml_file|e]]]; [done | | done].
  unfold source_exception, source_records_exc, source_records,
    source_outcome. cbn [fst snd as_fetched].
  destruct (extract_exc (mkKMLParser []) (ParseGives kml_file) (mid source)).1.2
    as [ps|e] eqn:E; [|done].
  intros _. by apply extract_exc_returned in E as [_ ->].
Qed.

Lemma merge_source_exc_cases (i : nat) (source : Source) (got : retrieved)
    (st : merge_state) :
  step_exc i source got st
  = match exception_of (source, got) with
    | Some e => Raised e
    | None => Returned (step i source (as_fetched got) st)
    end.
Proof.
  destruct got as [|[kml_file|e]]; [done | | done].
  unfold source_exception.
  rewrite <- (source_outcome_eq (kml_parser st)).
  unfold merge_source_exc, merge_source.
  destruct (extract_exc (kml_parser st) (ParseGives kml_file) (mid source)).1.2
    as [ps|e] eqn:E.
  - apply extract_exc_returned in E as [-> <-]. simpl.
    destruct (extract (kml_parser st) kml_file (mid source))
      as [[parser ps] printed]. simpl.
    destruct ps as [|p ps]; [done|].
    destruct (Nat.eqb i 1); [done|].
    by destruct (fold_left _ _ _) as [[all added] skipped].
  - destruct (extract_exc (kml_parser st) (ParseGives kml_file) (mid source))
      as [[parser out] printed]. simpl in E. by subst out.
Qed.

(** The loop ends with the exception of the first source that raises one;
    without one it is the loop over the sources as [as_fetched] gives
    them. *)
Lemma merge_loop_exc_cases (map_sources : list (Source * retrieved)) :
  ∀ (i : nat) (st : merge_state),
    loop_exc i map_sources st
    = match head (omap exception_of map_sources) with
      | Some e => Raised e
      | None => Returned (loop i (handled <$> map_sources) st)
      end.
Proof.
  induction map_sources as [|[source got] rest IH]; intros i st; [done|].
  cbn [merge_loop_exc]. rewrite merge_source_exc_cases. cbn [omap list_omap].
  destruct (exception_of (source, got)) as [e|]; [done|].
  by rewrite IH.
Qed.

Lemma merge_loop_exc_app (before after : list (Source * retrieved)) :
  ∀ (i : nat) (st : merge_state),
    loop_exc i (before ++ after) st
    = match loop_exc i before st with
      | Returned st' => loop_exc (i + length before) after st'
      | Raised e => Raised e
      end.
Proof.
  induction before as [|[source got] before IH]; intros i st; simpl.
  - by rewrite Nat.add_0_r.
  - destruct (step_exc i source got st) as [st'|e]; [|done].
    rewrite IH. by replace (S i + length before) with (i + S (length before))
      by lia.
Qed.

Lemma merged_rows_exc_cases (map_sources : list (Source * retrieved)) :
  rows_exc map_sources
  = match head (omap exception_of map_sources) with
    | Some e => Raised e
    | None =>
        Returned (merged_rows float charref_sub (handled <$> map_sources))
    end.
Proof.
  unfold merged_rows_exc. rewrite merge_loop_exc_cases.
  destruct (head _); [done|].
  by destruct (merge_loop_closed_form float charref_sub
                 (handled <$> map_sources)) as [-> _].
Qed.

(** The call in full: the exception of the first source that raises one;
    otherwise what the loop and the closing summary give. *)
Lemma download_multiple_maps_to_csv_exc_cases
    (map_sources : list (Source * retrieved)) :
  multi_exc map_sources
  = match head (omap exception_of map_sources) with
    | Some e => Raised e
    | None =>
        let st := loop 1 (handled <$> map_sources) merge_init in
        match download_multiple_maps_run float charref_sub
                (handled <$> map_sources) with
        | RunKeyError => Raised KeyError
        | RunReturned true rows => Returned (true, rows, stdout st)
        | RunReturned false rows =>
            Returned (false, rows, stdout st ++ [MsgNothingToSave])
        end
    end.
Proof.
  unfold download_multiple_maps_to_csv_exc, download_multiple_maps_run.
  rewrite merge_loop_exc_cases. destruct (head _); [done|].
  assert ((handled <$> map_sources).*1 = map_sources.*1) as ->.
  { rewrite <- list_fmap_compose. by apply list_fmap_ext. }
  cbv zeta. destruct (all_placemarks _); [done|].
  by destruct (closing_summary _ _).
Qed.

(** C9 (as amended).  A map that cannot be downloaded, or whose file is
    missing or is not well-formed (the two exceptions that the extractor
    catches), adds no record and no key, its failure is printed, and the
    loop goes on with the maps after it; over a whole run, when such a map
    is not the first, the rows (or the exception) are those of the run
    without it, and when it is the first, the rows are all the records of
    the other maps.  Any other exception that [ET.parse] or the walk raises
    is not caught: it ends the step, the loop and the call of
    [download_multiple_maps_to_csv], which raises it to its caller. *)
Theorem failed_source_contributes_nothing (i : nat) (source : Source)
    (got : retrieved) (st : merge_state) :
  (got = NoFile ∨ got = File (ParseGives ParseError)
   ∨ got = File (ParseGives FileNotFoundError) →
   ∃ st',
     step_exc i source got st = Returned st'
     ∧ all_placemarks st' = all_placemarks st
     ∧ primary_map_records st' = primary_map_records st
     ∧ stdout st'
       = stdout st
         ++ match got with
            | NoFile => [MsgDownloadFailed i]
            | File _ => [MsgFileError; MsgNoPlacemarks i]
            end
     ∧ (∀ rest,
          loop_exc i ((source, got) :: rest) st = loop_exc (S i) rest st')
     ∧ (∀ before after,
          before ≠ [] →
          rows_exc (before ++ (source, got) :: after)
          = rows_exc (before ++ after))
     ∧ (∀ after rows,
          rows_exc ((source, got) :: after) = Returned rows →
          rows = flat_map records_exc after))
  ∧ (∀ kml_file e,
       got = File kml_file →
       (extract_exc (kml_parser st) kml_file (mid source)).1.2 = Raised e →
       step_exc i source got st = Raised e
       ∧ (∀ rest, loop_exc i ((source, got) :: rest) st = Raised e)
       ∧ (∀ before after st0,
            loop_exc 1 before merge_init = Returned st0 →
            multi_exc (before ++ (source, got) :: after) = Raised e))
  ∧ (∀ e self source_mid,
       (extract_exc self (ParseRaises e) source_mid).1.2 = Raised e).
Proof.
  split; [|split; [|done]].
  - intros Hgot.
    assert (exception_of (source, got) = None) as Hexc
      by (by destruct Hgot as [-> | [-> | ->]]).
    assert (records (source, as_fetched got) = []) as Hnone
      by (by destruct Hgot as [-> | [-> | ->]]).
    exists (step i source (as_fetched got) st).
    split; [by rewrite merge_source_exc_cases, Hexc|].
    split; [by destruct Hgot as [-> | [-> | ->]]|].
    split; [by destruct Hgot as [-> | [-> | ->]]|].
    split; [by destruct Hgot as [-> | [-> | ->]]|].
    split; [|split].
    + intros rest. cbn [merge_loop_exc].
      by rewrite merge_source_exc_cases, Hexc.
    + intros before after Hne. rewrite !merged_rows_exc_cases.
      rewrite !omap_app. cbn [omap list_omap]. rewrite Hexc.
      destruct (head _); [done|]. f_equal.
      rewrite !fmap_app, fmap_cons.
      destruct before as [|first before]; [done|]. simpl.
      f_equal. rewrite !flat_map_app. simpl.
      by rewrite Hnone.
    + intros after rows. rewrite merged_rows_exc_cases.
      cbn [omap list_omap]. rewrite Hexc.
      destruct (head (omap exception_of after)) eqn:Hafter; [done|].
      intros [= <-]. apply head_omap_None in Hafter.
      rewrite Hnone. simpl.
      induction Hafter as [|sg after Hsg _ IH]; [done|].
      simpl. rewrite IH, (source_records_exc_handled _ Hsg). f_equal.
      apply filter_all. intros p. set_solver.
  - intros kml_file e -> He.
    assert (exception_of (source, File kml_file) = Some e) as Hexc.
    { unfold source_exception. rewrite <- (source_outcome_eq (kml_parser st)).
      by rewrite He. }
    assert (∀ j st1, step_exc j source (File kml_file) st1 = Raised e)
      as Hstep.
    { intros j st1. by rewrite merge_source_exc_cases, Hexc. }
    split; [apply Hstep|]. split.
    + intros rest. cbn [merge_loop_exc]. by rewrite Hstep.
    + intros before after st0 Hbefore.
      unfold download_multiple_maps_to_csv_exc.
      rewrite merge_loop_exc_app, Hbefore. cbn [merge_loop_exc].
      by rewrite Hstep.
Qed.

End MergeExceptions.

Lemma failed_source_contributes_nothing_witness :
  let rows :=
    merged_rows_exc float_ascii no_charref long_decimal_reference
      DEFAULT_RECURSION_LIMIT no_library_frames in
  let show := map (λ p : Placemark float64, (folder p, name p, source p)) in
  (∃ found,
     rows files_second_missing = Returned found
     ∧ show found
       = [ (lit "A/B", Some (lit "X"), lit "m1");
           (lit "A/B", Some (lit "Y"), lit "m1");
           (lit "C", Some (lit "Z"), lit "m3") ])
  ∧ (∃ found,
       merge_ascii_exc files_second_missing
       = Returned (true, Some found,
                   [MsgPrimary 1 2; MsgFileError; MsgNoPlacemarks 2;
                    MsgSecondary 3 1 1 0]))
  ∧ merge_ascii_exc files_second_unsupported = Raised ValueError.
Proof.
  intros rows show.
  set (first := named_file "m1" "one" (File (ParseGives (Tree doc_primary)))).
  set (third := named_file "m3" "three" (File (ParseGives (Tree doc_third)))).
  set (second := mkSource (lit "m2") (Some (lit "two"))).
  set (st1 :=
         merge_source float_ascii no_charref 1 first.1
           (Downloaded (Tree doc_primary)) merge_init).
  destruct (failed_source_contributes_nothing float_ascii no_charref
              long_decimal_reference DEFAULT_RECURSION_LIMIT no_library_frames
              2 second (File (ParseGives FileNotFoundError)) st1)
    as (Hcaught & _).
  destruct Hcaught as (st' & _ & _ & _ & _ & _ & Hrun & _);
    [right; by right|].
  destruct (failed_source_contributes_nothing float_ascii no_charref
              long_decimal_reference DEFAULT_RECURSION_LIMIT no_library_frames
              2 second (File (ParseRaises ValueError)) st1)
    as (_ & Hraised & _).
  destruct (Hraised (ParseRaises ValueError) ValueError eq_refl eq_refl)
    as (_ & _ & Hcall).
  split; [|split].
  - unfold rows.
    change files_second_missing
      with ([first] ++ (second, File (ParseGives FileNotFoundError))
                       :: [third]).
    rewrite Hrun by done. vm_compute. by eexists.
  - vm_compute. by eexists.
  - change files_second_unsupported
      with ([first] ++ (second, File (ParseRaises ValueError)) :: [third]).
    apply (Hcall [first] [third] st1). reflexivity.
Defined.

(** C9 as stated fails: a file that declares an encoding which the parser
    does not support makes [ET.parse] raise [ValueError], and a document
    nested too deep makes the walk raise [RecursionError]; neither is
    caught, so the run over the three maps ends with the exception, where
    the two other maps alone give three rows. *)
Lemma uncaught_exception_ends_merge :
  merge_ascii_exc files_second_unsupported = Raised ValueError
  ∧ merge_ascii_exc files_second_deep = Raised RecursionError
  ∧ ∃ rows printed,
      merge_ascii_exc
        [ named_file "m1" "one" (File (ParseGives (Tree doc_primary)));
          named_file "m3" "three" (File (ParseGives (Tree doc_third))) ]
      = Returned (true, Some rows, printed)
      ∧ length rows = 3.
Proof.
  split; [by vm_compute|]. split; [by vm_compute|].
  vm_compute. by eexists _, _.
Qed.

(** * Further properties *)

(** ** The text sanitizer on every input *)

Lemma words_upto_are_words (n : nat) (t : str) :
  Forall is_word (words_upto n t).
Proof.
  revert t. induction n as [|n IH]; intros t; simpl; [constructor|].
  destruct (drop_while isspace t) as [|c r] eqn:E; constructor; [|apply IH].
  apply drop_while_head in E. split.
  - simpl. unfold nonspace at 1. by rewrite E.
  - eapply Forall_impl; [apply (take_while_Forall nonspace (c :: r))|].
    intros x Hx. unfold nonspace in Hx. by destruct (isspace x).
Qed.

(** X1.  Whatever the text and whatever the entity decoder does, the result of
    [clean_html_tags] is a sequence of words, each without whitespace and
    not empty, joined by single spaces: no whitespace at either end, no
    whitespace other than the space, and no two spaces in a row. *)
Theorem clean_html_tags_normal_form (charref_sub : str → str)
    (text : option str) :
  ∃ ws, Forall is_word ws
        ∧ clean_html_tags charref_sub text = join_spaces ws.
Proof.
  destruct text as [[|c r]|]; [by exists [] | | by exists []].
  unfold clean_html_tags. rewrite strip_sub_ws.
  eexists. split; [apply words_upto_are_words | reflexivity].
Qed.

(** ** Removing tags *)

Lemma drop_while_nil_Forall (p : char → bool) (t : str) :
  drop_while p t = [] → Forall (λ c, p c = true) t.
Proof.
  induction t as [|c r IH]; simpl; [constructor|].
  destruct (p c) eqn:E; [|done]. intros H. constructor; auto.
Qed.

Lemma drop_while_Forall_nil (p : char → bool) (t : str) :
  Forall (λ c, p c = true) t → drop_while p t = [].
Proof. induction 1 as [|c r Hc _ IH]; simpl; [done|]. by rewrite Hc. Qed.

Lemma pat_tag_needs_gt (t : str) :
  Forall (λ c, not_gt c = true) t → pat_tag t = None.
Proof.
  destruct t as [|c r]; [done|]. intros H. apply Forall_cons in H as [_ H].
  unfold pat_tag. destruct (c =? ch "<")%N; [|done].
  rewrite (drop_while_Forall_nil _ _ H). by destruct (take_while not_gt r).
Qed.

Lemma sub_tag_without_gt (t : str) :
  Forall (λ c, not_gt c = true) t → re_sub pat_tag 0 t = t.
Proof.
  intros H. apply re_sub_no_match. intros k. apply pat_tag_needs_gt.
  rewrite <- (take_drop k t) in H. by apply Forall_app in H as [_ H].
Qed.

Lemma pat_tag_here (b c : str) :
  b ≠ [] → ch ">" ∉ b →
  pat_tag (ch "<" :: b ++ ch ">" :: c) = Some ([], 1 + length b + 1).
Proof.
  intros Hb Hgt. unfold pat_tag. rewrite N.eqb_refl.
  assert (Forall (λ x, not_gt x = true) b) as Hall.
  { apply Forall_forall. intros x Hx. unfold not_gt.
    apply negb_true_iff, N.eqb_neq. by intros ->. }
  rewrite take_while_app_stop, drop_while_all by done. simpl.
  rewrite app_nil_r. by destruct b.
Qed.

Lemma pat_tag_other (c : char) (u : str) :
  c ≠ ch "<" → pat_tag (c :: u) = None.
Proof. intros H. unfold pat_tag. by apply N.eqb_neq in H as ->. Qed.

Lemma pat_tag_bracket_None (u : str) :
  pat_tag (ch "<" :: u) = None
  ↔ take_while not_gt u = [] ∨ drop_while not_gt u = [].
Proof.
  unfold pat_tag. rewrite N.eqb_refl.
  destruct (take_while not_gt u), (drop_while not_gt u);
    intuition discriminate.
Qed.

Lemma sub_tag_kept (c : char) (r : str) :
  pat_tag (c :: r) = None →
  re_sub pat_tag 0 (c :: r) = c :: re_sub pat_tag 0 r.
Proof. intros H. cbn [re_sub]. by rewrite H. Qed.

(** In the text left by the tag pattern, the pattern matches nowhere. *)
Lemma sub_tag_leaves_no_match (n : nat) :
  ∀ t : str, length t ≤ n →
    ∀ k, pat_tag (drop k (re_sub pat_tag 0 t)) = None.
Proof.
  induction n as [|n IH]; intros t Hlen k.
  { destruct t; [by destruct k | simpl in Hlen; lia]. }
  destruct t as [|c r]; [by destruct k|]. simpl in Hlen.
  destruct (pat_tag (c :: r)) as [[repl len]|] eqn:Em.
  - cbn [re_sub]. rewrite Em, re_sub_skip.
    assert (repl = []) as ->.
    { unfold pat_tag in Em. destruct (c =? ch "<")%N; [|done].
      destruct (take_while not_gt r); [done|].
      destruct (drop_while not_gt r); [done|]. by injection Em as <- _. }
    simpl. apply IH. rewrite length_drop. lia.
  - cbn [re_sub]. rewrite Em. destruct k as [|k]; [|apply IH; lia].
    simpl drop.
    destruct (N.eqb_spec c (ch "<")) as [->|Hc]; [|by apply pat_tag_other].
    apply pat_tag_bracket_None. apply pat_tag_bracket_None in Em as [Et|Ed].
    + left. destruct r as [|g r']; [done|]. simpl in Et.
      destruct (not_gt g) eqn:Eg; [done|].
      rewrite sub_tag_kept; [simpl; by rewrite Eg|].
      apply pat_tag_other. unfold not_gt in Eg.
      apply negb_false_iff, N.eqb_eq in Eg as ->. done.
    + right. apply drop_while_nil_Forall in Ed.
      rewrite sub_tag_without_gt by done. by apply drop_while_Forall_nil.
Qed.

(** X2.  One pass of the tag pattern removes every tag: what it leaves contains
    no tag, so a second pass changes nothing. *)
Theorem sub_tag_complete (t : str) :
  no_tag (re_sub pat_tag 0 t)
  ∧ re_sub pat_tag 0 (re_sub pat_tag 0 t) = re_sub pat_tag 0 t.
Proof.
  pose proof (sub_tag_leaves_no_match (length t) t (le_n _)) as H.
  split; [|by apply re_sub_no_match].
  intros a b c Hb Hgt E.
  specialize (H (length a)). rewrite E, drop_app_length in H.
  by rewrite pat_tag_here in H.
Qed.

(** ** The records of the extractor *)

Section Records.

Context {F : Type}.
Variable float : str → option F.
Variable charref_sub : str → str.

Local Abbreviation extract := (extract_placemarks_from_kml float charref_sub).
Local Abbreviation data := (placemark_data float charref_sub).

Lemma placemark_data_with_source (mid mid' : str) (element : Element)
    (folder_path : option str) :
  data mid' element folder_path
  = with_source mid' (data mid element folder_path).
Proof.
  unfold placemark_data, with_source.
  by destruct (match find_descendant _ element with
               | Some c => parse_coordinates float (text c)
               | None => (None, None)
               end).
Qed.

Lemma extract_map_data (self : KMLParser) (kml_file : parse_result)
    (mid : str) :
  ∃ ns : list (list Element * Element),
    (extract self kml_file mid).1.2
    = map (λ n, data mid n.2 (walked_path n.1)) ns.
Proof.
  rewrite extract_emitted. destruct kml_file; [by exists [] | by exists [] |].
  by eexists.
Qed.

(** X3.  The source identifier only tags the records: every record carries the
    identifier passed to the call, and the records for another identifier
    are the same records with the other tag. *)
Theorem extract_source_tag (self self' : KMLParser) (kml_file : parse_result)
    (mid mid' : str) :
  Forall (λ p, source p = mid) (extract self kml_file mid).1.2
  ∧ (extract self' kml_file mid').1.2
    = map (with_source mid') (extract self kml_file mid).1.2.
Proof.
  rewrite !extract_emitted. destruct kml_file; [done | done |].
  unfold emitted. split.
  - apply Forall_forall. intros p Hp.
    apply list_elem_of_In, in_map_iff in Hp as (n & <- & _).
    by rewrite (placemark_data_with_source [] mid).
  - rewrite map_map. apply map_ext. intros n.
    apply placemark_data_with_source.
Qed.

(** X4.  The folder of a record is never the empty string: outside every named
    folder it is the root label. *)
Theorem extract_folder_not_empty (self : KMLParser) (kml_file : parse_result)
    (mid : str) :
  Forall (λ p, folder p ≠ []) (extract self kml_file mid).1.2.
Proof.
  destruct (extract_map_data self kml_file mid) as [ns ->].
  apply Forall_forall. intros p Hp.
  apply list_elem_of_In, in_map_iff in Hp as (n & <- & _).
  rewrite folder_placemark_data.
  by destruct (walked_path n.1) as [[|c r]|].
Qed.

Lemma nodes_cons (a : Element) (e : Element) :
  ∀ ancestors,
    nodes (a :: ancestors) e
    = map (λ n, (a :: n.1, n.2)) (nodes ancestors e).
Proof.
  induction e as [t x cs IH] using Element_ind_nested. intros ancestors.
  rewrite !nodes_eq. simpl. f_equal.
  generalize (Elem t x cs) as e. intros e.
  induction IH as [|c cs' Hc _ IHcs]; simpl; [done|].
  by rewrite map_app, <- Hc, IHcs.
Qed.

Lemma emitted_below_wrapper (mid : str) (a : Element)
    (ns : list (list Element * Element)) :
  is_folder a = false → is_placemark a = false →
  emitted float charref_sub mid (map (λ n, (a :: n.1, n.2)) ns)
  = emitted float charref_sub mid ns.
Proof.
  intros Hf Hp. unfold emitted.
  assert (∀ n : list Element * Element,
            reached_placemark (a :: n.1, n.2) = reached_placemark n) as Hr.
  { intros n. unfold reached_placemark. simpl. by rewrite Hp. }
  assert (∀ l, walked_path (a :: l) = walked_path l) as Hw.
  { intros l. unfold walked_path. simpl. by rewrite Hf. }
  induction ns as [|n ns IH]; [done|].
  cbn [map List.filter]. rewrite Hr.
  destruct (reached_placemark n); [|done].
  cbn [map fst snd]. by rewrite IH, Hw.
Qed.


End Records.


(** ** The summary *)

Lemma enumerate_lookup {A : Type} (l : list A) :
  ∀ (start i : nat) (x : A),
    In (i, x) (enumerate start l) ↔ start ≤ i ∧ l !! (i - start) = Some x.
Proof.
  induction l as [|y l IH]; intros start i x; simpl.
  - split; [done | by intros [_ ?]].
  - rewrite IH. split.
    + intros [[= <- <-] | [Hle Hl]].
      * split; [lia|]. by rewrite Nat.sub_diag.
      * split; [lia|]. by replace (i - start) with (S (i - S start)) by lia.
    + intros [Hle Hl]. destruct (decide (i = start)) as [->|Hne].
      * left. rewrite Nat.sub_diag in Hl. simpl in Hl. congruence.
      * right. split; [lia|].
        by replace (i - start) with (S (i - S start)) in Hl by lia.
Qed.

Lemma filter_enumerate_length {A : Type} (f : A → bool) (l : list A) :
  ∀ start,
    length (List.filter (λ ip : nat * A, f ip.2) (enumerate start l))
    = length (List.filter f l).
Proof.
  induction l as [|y l IH]; intros start; simpl; [done|].
  destruct (f y); simpl; by rewrite IH.
Qed.

Lemma lacks_not_has {F : Type} (p : Placemark F) :
  lacks_coordinate p = negb (has_coordinates p).
Proof.
  unfold lacks_coordinate, has_coordinates.
  by destruct (latitude p), (longitude p).
Qed.

Lemma lacks_coordinate_spec {F : Type} (p : Placemark F) :
  lacks_coordinate p = true ↔ latitude p = None ∨ longitude p = None.
Proof.
  unfold lacks_coordinate.
  destruct (latitude p), (longitude p); intuition discriminate.
Qed.

Lemma filter_complement_length {A : Type} (f g : A → bool) (l : list A) :
  (∀ x, g x = negb (f x)) →
  length (List.filter f l) + length (List.filter g l) = length l.
Proof.
  intros H. induction l as [|y l IH]; simpl; [done|].
  rewrite H. destruct (f y); simpl; lia.
Qed.

(** X6.  The counts and the listing of [show_summary] agree: the total is the
    number of placemarks, the two counts add up to it, and the listing holds
    exactly without-coordinates many lines, one for each placemark of which
    the latitude or the longitude is missing, with its position counted
    from 1 and its name. *)
Theorem show_summary_consistent {F : Type} (self : KMLParser)
    (placemarks : option (list (Placemark F)))
    (total_count with_coords without_coords : Z)
    (listed : list (nat * option str)) :
  show_summary self placemarks
  = SummaryCounts total_count with_coords without_coords listed →
  let shown := default (get_placemarks self) placemarks in
  total_count = Z.of_nat (length shown)
  ∧ (0 ≤ with_coords)%Z ∧ (0 ≤ without_coords)%Z
  ∧ (with_coords + without_coords = total_count)%Z
  ∧ Z.of_nat (length listed) = without_coords
  ∧ ∀ i nm,
      In (i, nm) listed
      ↔ ∃ p, 1 ≤ i ∧ shown !! (i - 1) = Some p ∧ name p = nm
             ∧ (latitude p = None ∨ longitude p = None).
Proof.
  intros Hs shown. unfold show_summary in Hs.
  replace (match placemarks with
           | Some given => given
           | None => get_placemarks self
           end) with shown in Hs by (by destruct placemarks).
  destruct shown as [|p0 ps] eqn:Eshown; [done|]. rewrite <- Eshown in *.
  clear Eshown p0 ps.
  pose proof (filter_complement_length has_coordinates lacks_coordinate shown
                lacks_not_has) as Hsum.
  set (missing := List.filter (λ ip : nat * Placemark F, lacks_coordinate ip.2)
                    (enumerate 1 shown)) in *.
  assert (length missing = length (List.filter lacks_coordinate shown))
    as Hmissing by apply filter_enumerate_length.
  assert (∀ i nm,
            In (i, nm) (map (λ ip : nat * Placemark F, (ip.1, name ip.2))
                          missing)
            ↔ ∃ p, 1 ≤ i ∧ shown !! (i - 1) = Some p ∧ name p = nm
                   ∧ (latitude p = None ∨ longitude p = None)) as Hin.
  { intros i nm. rewrite in_map_iff. split.
    - intros ([j p] & [= <- <-] & Hp). unfold missing in Hp.
      apply filter_In in Hp as [Hp Hl]. apply enumerate_lookup in Hp as [? ?].
      exists p. by rewrite <- lacks_coordinate_spec.
    - intros (p & Hi & Hl & <- & Hc). exists (i, p). split; [done|].
      apply filter_In. split; [by apply enumerate_lookup|].
      by apply lacks_coordinate_spec. }
  injection Hs as <- <- <- <-.
  split; [done|]. split; [lia|]. split; [lia|]. split; [lia|].
  destruct (0 <? _)%Z eqn:Epos.
  - split; [rewrite length_map; lia | exact Hin].
  - apply Z.ltb_ge in Epos. split; [simpl; lia|].
    assert (missing = []) as Hnil.
    { destruct missing; [done | simpl in *; lia]. }
    intros i nm. rewrite <- Hin, Hnil. done.
Qed.

Lemma show_summary_consistent_witness :
  show_summary (mkKMLParser (extract_ascii (Tree doc_sample) (lit "m"))) None
  = SummaryCounts 3 2 1 [(3, Some [])]
  ∧ (2 + 1 = 3)%Z ∧ Z.of_nat (length [(3, Some (@nil N))]) = 1%Z.
Proof.
  assert (show_summary (mkKMLParser (extract_ascii (Tree doc_sample) (lit "m")))
            None
          = SummaryCounts 3 2 1 [(3, Some [])]) as H by (by vm_compute).
  split; [exact H|].
  destruct (show_summary_consistent _ _ _ _ _ _ H) as (_ & _ & _ & H1 & H2 & _).
  by split.
Defined.

(** ** The map identifier and the single-map run *)

Lemma part_after_d_spec (path_parts : list str) (x : str) :
  part_after_d path_parts = Some x
  ↔ ∃ pre post,
      path_parts = pre ++ lit "d" :: x :: post ∧ lit "d" ∉ pre.
Proof.
  induction path_parts as [|part rest IH].
  - split; [done|]. intros (pre & post & E & _). by destruct pre.
  - destruct rest as [|next rest'].
    + split; [done|]. intros (pre & post & E & _).
      by destruct pre as [|? [|? ?]].
    + cbn [part_after_d]. case_bool_decide as Hd.
      * subst part. split.
        -- intros [= ->]. exists [], rest'. split; [done|].
           apply not_elem_of_nil.
        -- intros (pre & post & E & Hpre). destruct pre as [|p pre].
           ++ by injection E as <- _.
           ++ injection E as <- _.
              by apply not_elem_of_cons in Hpre as [? _].
      * rewrite IH. split.
        -- intros (pre & post & E & Hpre). exists (part :: pre), post.
           split; [by rewrite E|].
           apply not_elem_of_cons. split; [congruence | done].
        -- intros (pre & post & E & Hpre). destruct pre as [|p pre].
           ++ injection E as E1 _. congruence.
           ++ injection E as <- E. exists pre, post. split; [done|].
              by apply not_elem_of_cons in Hpre as [_ ?].
Qed.

(** X7.  [extract_map_id] gives the first value of the parameter [mid] when the
    query has one, whatever the path; without that parameter it gives the
    path segment that follows the first segment [d], and nothing when there
    is no segment [d] or when [d] is the last segment; when the URL cannot
    be parsed it gives nothing. *)
Theorem extract_map_id_cases :
  extract_map_id UrlError = None
  ∧ (∀ query_params path v vs,
       query_params !! lit "mid" = Some (v :: vs) →
       extract_map_id (UrlParts query_params path) = Some v)
  ∧ (∀ query_params path x,
       query_params !! lit "mid" = None →
       extract_map_id (UrlParts query_params path) = Some x
       ↔ ∃ pre post,
           split (ch "/") path = pre ++ lit "d" :: x :: post
           ∧ lit "d" ∉ pre).
Proof.
  split; [done|]. split.
  - intros q path v vs H. unfold extract_map_id. by rewrite H.
  - intros q path x H. unfold extract_map_id. rewrite H.
    apply part_after_d_spec.
Qed.

Lemma extract_map_id_cases_witness :
  extract_map_id (UrlParts {[ lit "mid" := [lit "1qOHK"] ]}
                    (lit "/maps/d/u/0/viewer"))
  = Some (lit "1qOHK")
  ∧ extract_map_id (UrlParts ∅ (lit "/maps/d/1qOHK/edit")) = Some (lit "1qOHK")
  ∧ extract_map_id (UrlParts ∅ (lit "/maps/d/u/0/viewer")) = Some (lit "u")
  ∧ extract_map_id (UrlParts ∅ (lit "/maps/d")) = None.
Proof.
  destruct extract_map_id_cases as (_ & Hq & Hp).
  split; [|split; [|split]].
  - by apply (Hq _ _ (lit "1qOHK") []).
  - apply Hp; [done|]. exists [ []; lit "maps" ], [lit "edit"].
    split; [reflexivity|].
    by apply (proj1 (bool_decide_eq_false (lit "d" ∈ [ []; lit "maps" ]))).
  - apply Hp; [done|]. exists [ []; lit "maps" ], [lit "0"; lit "viewer"].
    split; [reflexivity|].
    by apply (proj1 (bool_decide_eq_false (lit "d" ∈ [ []; lit "maps" ]))).
  - reflexivity.
Defined.

Section SingleMap.

Context {F : Type}.
Variable float : str → option F.
Variable charref_sub : str → str.

Local Abbreviation extract := (extract_placemarks_from_kml float charref_sub).
Local Abbreviation run := (download_and_parse_to_csv float charref_sub).

Lemma extract_nonempty (self : KMLParser) (kml_file : parse_result)
    (mid : str) :
  (extract self kml_file mid).1.2 ≠ []
  ↔ ∃ root, kml_file = Tree root ∧ reached_placemarks root ≠ [].
Proof.
  rewrite extract_emitted. destruct kml_file as [| |root].
  - split; [done | by intros (? & ? & _)].
  - split; [done | by intros (? & ? & _)].
  - unfold emitted. fold (reached_placemarks root). split.
    + intros H. exists root. split; [done|]. intros E. by rewrite E in H.
    + intros (r & [= <-] & H) E. by apply map_eq_nil in E.
Qed.

Lemma extract_parser_state (self : KMLParser) (kml_file : parse_result)
    (mid : str) :
  get_placemarks (extract self kml_file mid).1.1
  = (extract self kml_file mid).1.2.
Proof. by destruct kml_file. Qed.


End SingleMap.


(** ** The merged rows and what is printed about them *)

Lemma flat_map_nil {A B : Type} (f : A → list B) (l : list A) :
  flat_map f l = [] ↔ Forall (λ x, f x = []) l.
Proof.
  induction l as [|a l IH]; simpl.
  - split; [constructor | done].
  - split.
    + intros H. apply app_eq_nil in H as [Ha Hl].
      constructor; [done | by apply IH].
    + intros H. apply Forall_cons in H as [-> Hl]. by apply IH.
Qed.

Section Rows.

Context {F : Type}.
Variable float : str → option F.
Variable charref_sub : str → str.

Local Abbreviation extract := (extract_placemarks_from_kml float charref_sub).
Local Abbreviation records := (source_records float charref_sub).
Local Abbreviation step := (merge_source float charref_sub).
Local Abbreviation loop := (merge_loop float charref_sub).
Local Abbreviation multi := (download_multiple_maps_to_csv float charref_sub).
Local Abbreviation run := (download_multiple_maps_run float charref_sub).

Lemma multi_rows (map_sources : list (Source * fetched)) :
  (multi map_sources).1
  = match merged_rows float charref_sub map_sources with
    | [] => (false, None)
    | rows => (true, Some rows)
    end.
Proof.
  unfold download_multiple_maps_to_csv.
  destruct (merge_loop_closed_form float charref_sub map_sources) as [-> _].
  by destruct (merged_rows float charref_sub map_sources).
Qed.


(** When the run returns, the rows it hands over are those of the loop. *)
Lemma run_returned_rows (map_sources : list (Source * fetched)) (ok : bool)
    (rows : option (list (Placemark F))) :
  run map_sources = RunReturned ok rows →
  default [] rows = merged_rows float charref_sub map_sources
  ∧ (ok = true → rows = Some (merged_rows float charref_sub map_sources)).
Proof.
  unfold download_multiple_maps_run.
  destruct (merge_loop_closed_form float charref_sub map_sources) as [-> _].
  destruct (merged_rows float charref_sub map_sources) as [|p ps].
  - by intros [= <- <-].
  - destruct (closing_summary _ _); [|done]. by intros [= <- <-].
Qed.

(** X10.  When the run returns, a record is among the rows handed to
    [save_to_csv] exactly when it is a record of the first map, or a record
    of a later map whose identity key no record of the first map has. *)
Theorem multi_rows_membership (map_sources : list (Source * fetched))
    (rows : list (Placemark F)) (p : Placemark F) :
  run map_sources = RunReturned true (Some rows) →
  p ∈ rows
  ↔ (∃ first, map_sources !! 0 = Some first ∧ p ∈ records first)
    ∨ (∃ i sg, 0 < i ∧ map_sources !! i = Some sg ∧ p ∈ records sg
               ∧ ∀ first q, map_sources !! 0 = Some first →
                            q ∈ records first →
                            folder_name_key q ≠ folder_name_key p).
Proof.
  intros Hrun. apply run_returned_rows in Hrun as [Hrows _].
  simpl in Hrows. subst rows.
  destruct map_sources as [|first others]; cbn [merged_rows primary_keys].
  { split; [by intros ?%elem_of_nil|].
    by intros [(? & ? & _) | (? & ? & _ & ? & _)]. }
  assert (∀ k, k ∉ (list_to_set (folder_name_key <$> records first) : gset key)
               ↔ ∀ q, q ∈ records first → folder_name_key q ≠ k) as Hkeys.
  { intros k. rewrite elem_of_list_to_set, list_elem_of_fmap. split.
    - intros H q Hq E. apply H. by exists q.
    - intros H (q & E & Hq). by apply (H q). }
  rewrite elem_of_app. split.
  - intros [Hp | Hp].
    + left. by exists first.
    + right. apply list_elem_of_In, in_flat_map in Hp as (sg & Hsg & Hp).
      apply list_elem_of_In, list_elem_of_lookup in Hsg as [i Hi].
      apply list_elem_of_In, list_elem_of_filter in Hp as [Hfresh Hp].
      exists (S i), sg. split; [lia|]. split; [done|]. split; [done|].
      intros f q [= <-]. by apply Hkeys.
  - intros [(f & [= <-] & Hp) | (i & sg & Hi & Hsg & Hp & Hfresh)];
      [by left|].
    right. destruct i as [|i]; [lia|]. simpl in Hsg.
    apply list_elem_of_In, in_flat_map. exists sg. split.
    + apply list_elem_of_In, list_elem_of_lookup. by exists i.
    + apply list_elem_of_In, list_elem_of_filter. split; [|done].
      apply Hkeys. intros q Hq. by apply (Hfresh first).
Qed.

Lemma step_accounting (i : nat) (source : Source) (got : fetched)
    (st : merge_state) :
  ∃ printed,
    stdout (step i source got st) = stdout st ++ printed
    ∧ length (all_placemarks (step i source got st))
      = length (all_placemarks st) + sum_list_with rows_reported printed
    ∧ Forall counts_add_up printed.
Proof.
  destruct got as [|kml_file]; simpl.
  { exists [MsgDownloadFailed i]. split; [done|]. split; [simpl; lia|].
    by repeat constructor. }
  unfold merge_source.
  assert (∃ parser ps out,
            extract (kml_parser st) kml_file (mid source) = (parser, ps, out)
            ∧ sum_list_with rows_reported out = 0
            ∧ Forall counts_add_up out)
    as (parser & ps & out & -> & Hout & Hok).
  { destruct kml_file; simpl; eexists _, _, _; split; try done;
      split; try done; by repeat constructor. }
  destruct ps as [|p ps].
  { exists (out ++ [MsgNoPlacemarks i]). simpl. split; [done|].
    rewrite sum_list_with_app, Hout. simpl. split; [lia|].
    apply Forall_app. split; [done | by repeat constructor]. }
  destruct (Nat.eqb i 1).
  - exists (out ++ [MsgPrimary i (length (p :: ps))]). simpl.
    split; [done|]. rewrite sum_list_with_app, Hout, length_app. simpl.
    split; [lia|]. apply Forall_app. split; [done | by repeat constructor].
  - change (fold_left _ ps _)
      with (fold_left (merge_placemark (primary_map_records st)) (p :: ps)
              (all_placemarks st, 0, 0)).
    rewrite secondary_loop. simpl stdout. simpl all_placemarks.
    eexists (out ++ [MsgSecondary i _ _ _]). split; [done|].
    rewrite sum_list_with_app, Hout, length_app. simpl.
    split; [lia|]. apply Forall_app. split; [done|].
    constructor; [|constructor]. simpl.
    pose proof (filter_app_complement
                  (λ q : Placemark F,
                     folder_name_key q ∈ primary_map_records st) (p :: ps))
      as Hperm.
    apply Permutation_length in Hperm. rewrite length_app in Hperm.
    simpl in Hperm. lia.
Qed.

Lemma loop_accounting (map_sources : list (Source * fetched)) :
  ∀ (i : nat) (st : merge_state),
    ∃ printed,
      stdout (loop i map_sources st) = stdout st ++ printed
      ∧ length (all_placemarks (loop i map_sources st))
        = length (all_placemarks st) + sum_list_with rows_reported printed
      ∧ Forall counts_add_up printed.
Proof.
  induction map_sources as [|[source got] rest IH]; intros i st; simpl.
  - exists []. rewrite app_nil_r. simpl. split; [done|]. split; [lia|done].
  - destruct (step_accounting i source got st) as (out1 & E1 & L1 & C1).
    destruct (IH (S i) (step i source got st)) as (out2 & E2 & L2 & C2).
    exists (out1 ++ out2). rewrite E2, E1, <- app_assoc. split; [done|].
    rewrite L2, L1, sum_list_with_app. split; [lia|].
    by apply Forall_app.
Qed.

(** X11.  When the run returns, what the loop printed accounts for every
    row: the number of rows handed to [save_to_csv] is the number reported
    for the first map plus the numbers reported as added for the later maps.
    In every message of a later map the added and the skipped records add up
    to the records found. *)
Theorem multi_accounting (map_sources : list (Source * fetched)) (ok : bool)
    (rows : option (list (Placemark F))) :
  run map_sources = RunReturned ok rows →
  let printed := stdout (loop 1 map_sources merge_init) in
  length (default [] rows) = sum_list_with rows_reported printed
  ∧ Forall counts_add_up printed.
Proof.
  intros Hrun printed. apply run_returned_rows in Hrun as [-> _].
  destruct (merge_loop_closed_form float charref_sub map_sources) as [<- _].
  destruct (loop_accounting map_sources 1 merge_init)
    as (out & E & L & C). simpl in E, L.
  unfold printed. by rewrite E, L.
Qed.

End Rows.

(** ** The closing summary *)

#[local] Set Warnings "-clear-no-such-hyp".

Lemma stats_add_keys (source : str) (stats : list (str * nat)) (s : str) :
  s ∈ (stats_add source stats).*1 ↔ s = source ∨ s ∈ stats.*1.
Proof.
  induction stats as [|[k c] rest IH]; simpl.
  - rewrite list_elem_of_singleton, elem_of_nil. tauto.
  - case_bool_decide as Hk; simpl; rewrite !elem_of_cons.
    + subst k. tauto.
    + rewrite IH. tauto.
Qed.

Lemma stats_add_NoDup (source : str) (stats : list (str * nat)) :
  NoDup stats.*1 → NoDup (stats_add source stats).*1.
Proof.
  induction stats as [|[k c] rest IH]; simpl; intros H.
  - apply NoDup_singleton.
  - apply NoDup_cons in H as [Hk Hrest].
    case_bool_decide as Hks; simpl; apply NoDup_cons; [done|].
    split; [|by apply IH]. rewrite stats_add_keys. by intros [-> | ?].
Qed.

Lemma stats_add_elem (source : str) (stats : list (str * nat)) (s : str)
    (n : nat) :
  NoDup stats.*1 →
  (s, n) ∈ stats_add source stats
  ↔ (s ≠ source ∧ (s, n) ∈ stats)
    ∨ (s = source
       ∧ ((∃ m, (source, m) ∈ stats ∧ n = S m)
          ∨ ((source ∉ stats.*1) ∧ n = 1))).
Proof.
  induction stats as [|[k c] rest IH]; simpl; intros H.
  - rewrite list_elem_of_singleton. setoid_rewrite elem_of_nil.
    pose proof (not_elem_of_nil source). naive_solver.
  - apply NoDup_cons in H as [Hk Hrest]. specialize (IH Hrest).
    assert (∀ m, (k, m) ∉ rest) as Hk'.
    { intros m Hm. apply Hk. by apply (list_elem_of_fmap_2 fst) in Hm. }
    case_bool_decide as Hks.
    + subst k. rewrite not_elem_of_cons. setoid_rewrite elem_of_cons.
      naive_solver.
    + rewrite not_elem_of_cons. setoid_rewrite elem_of_cons. rewrite IH.
      naive_solver.
Qed.

Lemma stats_add_sum (source : str) (stats : list (str * nat)) :
  sum_list_with snd (stats_add source stats) = S (sum_list_with snd stats).
Proof.
  induction stats as [|[k c] rest IH]; simpl; [done|].
  case_bool_decide; simpl; [done|]. rewrite IH. lia.
Qed.

Section Stats.

Context {F : Type}.

Local Abbreviation from s := (λ p : Placemark F, source p = (s : str)).

Lemma source_stats_invariant (rows seen : list (Placemark F))
    (stats : list (str * nat)) :
  NoDup stats.*1 →
  (∀ s n, (s, n) ∈ stats ↔ 0 < n ∧ n = length (filter (from s) seen)) →
  sum_list_with snd stats = length seen →
  let final :=
    fold_left (λ stats placemark, stats_add (source placemark) stats)
      rows stats in
  NoDup final.*1
  ∧ (∀ s n, (s, n) ∈ final
            ↔ 0 < n ∧ n = length (filter (from s) (seen ++ rows)))
  ∧ sum_list_with snd final = length (seen ++ rows).
Proof.
  revert seen stats. induction rows as [|p rows IH]; intros seen stats Hnd Hin Hsum.
  { simpl. by rewrite app_nil_r. }
  simpl. rewrite (cons_middle p seen rows), app_assoc.
  apply IH.
  - by apply stats_add_NoDup.
  - intros s n. rewrite stats_add_elem by done.
    rewrite filter_app, length_app, !Hin.
    assert (source p ∉ stats.*1
            ↔ length (filter (from (source p)) seen) = 0) as Hfresh.
    { split.
      - intros Hno. destruct (length (filter (from (source p)) seen)) eqn:E;
          [done|]. exfalso. apply Hno.
        apply list_elem_of_fmap. exists (source p, S n0). split; [done|].
        apply Hin. lia.
      - intros E Hk. apply list_elem_of_fmap in Hk as ([k c] & Heq & Hk).
        simpl in Heq. subst k. apply Hin in Hk. lia. }
    destruct (decide (s = source p)) as [->|Hne].
    + rewrite filter_cons_True by done. simpl. split.
      * intros [[? _] | [_ [(m & Hm & ->) | [Hno ->]]]]; [done | |].
        -- apply Hin in Hm. lia.
        -- apply Hfresh in Hno. lia.
      * intros [Hpos ->]. right. split; [done|].
        destruct (length (filter (from (source p)) seen)) as [|m] eqn:E.
        -- right. split; [by apply Hfresh | done].
        -- left. exists (S m). split; [|lia]. apply Hin. lia.
    + rewrite filter_cons_False by done. simpl. rewrite Nat.add_0_r.
      split; [by intros [[_ ?] | [? _]] | by left].
  - rewrite stats_add_sum, Hsum, length_app. simpl. lia.
Qed.

(** X12.  The statistics by source of the closing summary name every source of
    the rows once, each with the number of rows that carry it, and the
    counts add up to the number of rows. *)
Theorem source_stats_counts (rows : list (Placemark F)) :
  NoDup (source_stats rows).*1
  ∧ (∀ s n, (s, n) ∈ source_stats rows
            ↔ 0 < n ∧ n = length (filter (from s) rows))
  ∧ sum_list_with snd (source_stats rows) = length rows.
Proof.
  apply (source_stats_invariant rows [] []).
  - apply NoDup_nil_2.
  - intros s n. simpl. split; [by intros ?%elem_of_nil | lia].
  - done.
Qed.

Lemma source_stats_keys (rows : list (Placemark F)) (s : str) :
  s ∈ (source_stats rows).*1 ↔ ∃ p, p ∈ rows ∧ source p = s.
Proof.
  destruct (source_stats_invariant rows [] []) as (_ & Hin & _).
  - apply NoDup_nil_2.
  - intros s' n. simpl. split; [by intros ?%elem_of_nil | lia].
  - done.
  - simpl in Hin. split.
    + intros Hs. apply list_elem_of_fmap in Hs as ([k c] & -> & Hk).
      apply Hin in Hk as [Hpos ->]. simpl.
      destruct (filter (from k) rows) as [|p ps] eqn:E; [simpl in Hpos; lia|].
      assert (p ∈ filter (from k) rows) as Hp by (rewrite E; by left).
      apply list_elem_of_filter in Hp as [? ?]. by exists p.
    + intros (p & Hp & <-).
      apply list_elem_of_fmap.
      exists (source p, length (filter (from (source p)) rows)).
      split; [done|]. apply Hin. split; [|done].
      assert (p ∈ filter (from (source p)) rows) as Hp'
        by (by apply list_elem_of_filter).
      destruct (filter (from (source p)) rows); [by apply elem_of_nil in Hp'|].
      simpl. lia.
Qed.

End Stats.

Lemma source_name_None (map_sources : list Source) (source_id : str) :
  source_name map_sources source_id = None
  ↔ ∃ pre s post,
      map_sources = pre ++ s :: post
      ∧ Forall (λ s', mid s' ≠ source_id) pre
      ∧ mid s = source_id ∧ display_name s = None.
Proof.
  induction map_sources as [|s0 rest IH]; simpl.
  - split; [done|]. intros (pre & s & post & E & _). by destruct pre.
  - case_bool_decide as Hm.
    + split.
      * intros Hn. exists [], s0, rest. by repeat split.
      * intros (pre & s & post & E & Hpre & Hs & Hn).
        destruct pre as [|s1 pre]; [by injection E as -> _|].
        injection E as <- _. by apply Forall_cons in Hpre as [? _].
    + rewrite IH. split.
      * intros (pre & s & post & -> & Hpre & Hs & Hn).
        exists (s0 :: pre), s, post. split; [done|].
        split; [by constructor | done].
      * intros (pre & s & post & E & Hpre & Hs & Hn).
        destruct pre as [|s1 pre]; [injection E as <- _; congruence|].
        injection E as <- ->. apply Forall_cons in Hpre as [_ Hpre].
        by exists pre, s, post.
Qed.

Lemma source_name_named (map_sources : list Source) (source_id : str) :
  Forall (λ s, is_Some (display_name s)) map_sources →
  is_Some (source_name map_sources source_id).
Proof.
  induction 1 as [|s rest Hs _ IH]; simpl; [done|]. by case_bool_decide.
Qed.

Section Closing.

Context {F : Type}.
Variable float : str → option F.
Variable charref_sub : str → str.

Local Abbreviation multi := (download_multiple_maps_to_csv float charref_sub).
Local Abbreviation run := (download_multiple_maps_run float charref_sub).

Lemma closing_summary_None (map_sources : list Source)
    (rows : list (Placemark F)) :
  closing_summary map_sources rows = None
  ↔ ∃ p, p ∈ rows ∧ source_name map_sources (source p) = None.
Proof.
  unfold closing_summary.
  rewrite eq_None_not_Some, mapM_is_Some. split.
  - intros H. apply not_Forall_Exists in H; [|apply _].
    apply Exists_exists in H as ([k c] & Hk & Hnone). simpl in Hnone.
    apply (list_elem_of_fmap_2 fst) in Hk.
    apply source_stats_keys in Hk as (p & Hp & Hsrc). simpl in Hsrc.
    subst k. exists p. split; [done|].
    destruct (source_name map_sources (source p)); [|done].
    exfalso. by apply Hnone.
  - intros (p & Hp & Hnone) Hall.
    assert (source p ∈ (source_stats rows).*1) as Hk
      by (apply source_stats_keys; by exists p).
    apply list_elem_of_fmap in Hk as ([k c] & Hkeq & Hk). simpl in Hkeq.
    rewrite Forall_forall in Hall. specialize (Hall _ Hk). simpl in Hall.
    rewrite <- Hkeq, Hnone in Hall. by destruct Hall.
Qed.



End Closing.



(** ** More on the records and on the rows *)

Lemma description_placemark_data {F : Type} (float : str → option F)
    (charref_sub : str → str) (mid : str) (element : Element)
    (folder_path : option str) :
  ∃ raw,
    description (placemark_data float charref_sub mid element folder_path)
    = clean_html_tags charref_sub raw.
Proof.
  unfold placemark_data.
  destruct (match find_descendant _ element with
            | Some c => parse_coordinates float (text c)
            | None => (None, None)
            end).
  by eexists.
Qed.

(** X15.  The description of every record is cleaned text: words without
    whitespace joined by single spaces, so without line breaks, without
    whitespace at the ends and without double spaces. *)
Theorem extract_description_normal {F : Type} (float : str → option F)
    (charref_sub : str → str) (self : KMLParser) (kml_file : parse_result)
    (mid : str) :
  Forall (λ p, ∃ ws, Forall is_word ws ∧ description p = join_spaces ws)
    (extract_placemarks_from_kml float charref_sub self kml_file mid).1.2.
Proof.
  destruct (extract_map_data float charref_sub self kml_file mid) as [ns ->].
  apply Forall_forall. intros p Hp.
  apply list_elem_of_In, in_map_iff in Hp as (n & <- & _).
  destruct (description_placemark_data float charref_sub mid n.2
              (walked_path n.1)) as [raw ->].
  destruct raw as [[|c r]|]; [by exists [] | | by exists []].
  unfold clean_html_tags. rewrite strip_sub_ws.
  eexists. split; [apply words_upto_are_words | reflexivity].
Qed.

(** X16.  When the run returns rows, they begin with the records of the
    first map, all of them and in their order, duplicates among them
    included; a run over one map alone hands over exactly its records. *)
Theorem multi_primary_first {F : Type} (float : str → option F)
    (charref_sub : str → str) (first : Source * fetched)
    (others : list (Source * fetched)) (rows : list (Placemark F)) :
  download_multiple_maps_run float charref_sub (first :: others)
  = RunReturned true (Some rows) →
  ∃ later,
    rows = source_records float charref_sub first ++ later
    ∧ (others = [] → later = []).
Proof.
  intros Hrun. apply run_returned_rows in Hrun as [Hrows _].
  simpl in Hrows. subst rows.
  eexists. split; [reflexivity|]. by intros ->.
Qed.

Lemma multi_rows_membership_witness :
  ∃ rows p,
    download_multiple_maps_run float_ascii no_charref two_named_maps
    = RunReturned true (Some rows)
    ∧ (source p, folder_name_key p) = (lit "m2", (lit "C", Some (lit "Z")))
    ∧ p ∈ rows.
Proof.
  set (sg1 := named_map "m1" "one" (Downloaded (Tree doc_primary))).
  set (sg2 := named_map "m2" "two" (Downloaded (Tree doc_second))).
  assert (∃ rows,
            download_multiple_maps_run float_ascii no_charref two_named_maps
            = RunReturned true (Some rows)) as [rows E]
    by (vm_compute; by eexists).
  assert (∃ x p, source_records float_ascii no_charref sg2 = [x; p]
                 ∧ (source p, folder_name_key p)
                   = (lit "m2", (lit "C", Some (lit "Z"))))
    as (x & p & E2 & K)
    by (vm_compute; eexists _, _; split; reflexivity).
  assert (folder_name_key <$> source_records float_ascii no_charref sg1
          = [(lit "A/B", Some (lit "X")); (lit "A/B", Some (lit "Y"))])
    as E1 by (by vm_compute).
  exists rows, p. split; [done|]. split; [done|].
  apply (multi_rows_membership float_ascii no_charref two_named_maps rows p E).
  right. exists 1, sg2. split; [lia|]. split; [reflexivity|].
  split; [rewrite E2; apply elem_of_cons; right; by left|].
  intros first q Hfirst Hq.
  change (Some sg1 = Some first) in Hfirst. injection Hfirst as <-.
  apply (list_elem_of_fmap_2 folder_name_key) in Hq. rewrite E1 in Hq.
  apply pair_equal_spec in K as [_ K]. rewrite K. intros Heq.
  rewrite Heq in Hq. apply list_elem_of_In in Hq. vm_compute in Hq.
  by destruct Hq as [? | [? | []]].
Defined.

Lemma multi_accounting_witness :
  ∃ rows,
    download_multiple_maps_run float_ascii no_charref two_named_maps
    = RunReturned true (Some rows)
    ∧ stdout (merge_loop float_ascii no_charref 1 two_named_maps merge_init)
      = [MsgPrimary 1 2; MsgSecondary 2 2 1 1]
    ∧ length rows = 2 + 1.
Proof.
  assert (∃ rows,
            download_multiple_maps_run float_ascii no_charref two_named_maps
            = RunReturned true (Some rows)) as [rows E]
    by (vm_compute; by eexists).
  assert (stdout (merge_loop float_ascii no_charref 1 two_named_maps merge_init)
          = [MsgPrimary 1 2; MsgSecondary 2 2 1 1]) as Hout by (by vm_compute).
  exists rows. split; [done|]. split; [done|].
  destruct (multi_accounting float_ascii no_charref two_named_maps true
              (Some rows) E) as [Hlen _].
  rewrite Hout in Hlen. exact Hlen.
Defined.

Lemma multi_primary_first_witness :
  download_multiple_maps_run float_ascii no_charref
    [named_map "m1" "one" (Downloaded (Tree doc_primary))]
  = RunReturned true (Some (extract_ascii (Tree doc_primary) (lit "m1"))).
Proof.
  assert (∃ rows,
            download_multiple_maps_run float_ascii no_charref
              [named_map "m1" "one" (Downloaded (Tree doc_primary))]
            = RunReturned true (Some rows)) as [rows E]
    by (vm_compute; by eexists).
  rewrite E.
  destruct (multi_primary_first float_ascii no_charref _ _ rows E)
    as (later & -> & Hnil).
  rewrite (Hnil eq_refl), app_nil_r. reflexivity.
Defined.
